(** * Multi-player bandit strategies ([src/strategies.py])

    A shallow embedding of the four player strategies RandTopMOld, RandTopM,
    MCTopM and Selfish, of the shared bookkeeping of [Player], and of the
    [strategy] factory, followed by the properties stated about them.

    Conventions of the embedding.
    - A numpy [float64] vector is a [list] over a scalar type [R] of which
      only the operations the module uses are assumed (class [Scalar]): a
      decidable total preorder and an addition with a right neutral element.
      Not-a-number values are outside the model.  Draw counts and the round
      counter hold exact integers and are kept in [Z].
    - A Python exception is a [Raise] result.
    - A call that draws from [np.random.choice] returns the finite uniform
      distribution of its outcomes: a list whose positions are equally
      likely ([dist]).  A call that draws nothing returns a one-point list.
    - [np.argsort] and the index policy are collaborators from outside the
      module; they enter as parameters constrained by their contracts. *)

From Stdlib Require Import String.
From Stdlib Require Import List Bool Arith ZArith Lia Permutation Sorted.
Import ListNotations.

(** ** Scalars *)

Class Scalar (R : Type) : Type := {
  zero : R;
  add : R -> R -> R;
  leb : R -> R -> bool;
  leb_total : forall x y, leb x y = true \/ leb y x = true;
  leb_trans : forall x y z, leb x y = true -> leb y z = true -> leb x z = true;
  add_zero_r : forall x, add x zero = x
}.

#[export] Instance Scalar_Z : Scalar Z.
Proof.
  refine {| zero := 0%Z; add := Z.add; leb := Z.leb |}.
  - intros x y. rewrite !Z.leb_le. lia.
  - intros x y z. rewrite !Z.leb_le. lia.
  - intros x. apply Z.add_0_r.
Defined.

(** ** Exceptions and results *)

Inductive exn : Type :=
| ValueError | IndexError | AssertionError | NotImplementedError.

Inductive result (A : Type) : Type :=
| Ok (a : A)
| Raise (e : exn).
Arguments Ok {A} a.
Arguments Raise {A} e.

Definition bind {A B} (r : result A) (k : A -> result B) : result B :=
  match r with
  | Ok a => k a
  | Raise e => Raise e
  end.

Notation "x <- r ;; k" := (bind r (fun x => k))
  (at level 61, r at next level, right associativity).

(** A finite uniform distribution: every position of the list is equally
    likely. *)
Definition dist (A : Type) : Type := list A.

Definition dmap {A B} (f : A -> B) (r : result (dist A)) : result (dist B) :=
  x <- r ;; Ok (map f x).

(** [np.random.choice(a)] on a one-dimensional array: uniform over the
    entries of [a]; numpy raises [ValueError] when [a] is empty. *)
Definition choice {A} (a : list A) : result (dist A) :=
  match a with
  | [] => Raise ValueError
  | _ :: _ => Ok a
  end.

(** [d] gives every element of the duplicate-free list [S] the same
    probability and nothing else any: with [count_occ d a / length d] the
    probability of [a], this is probability [1 / length S] on [S]. *)
Definition uniform_over (S d : list nat) : Prop :=
  S <> [] /\ NoDup S /\ d <> [] /\
  forall a, count_occ Nat.eq_dec d a * length S
            = if in_dec Nat.eq_dec a S then length d else 0.

(** ** Vector operations of numpy used by the module *)

(** [v[i]] for an integer index; out of range raises [IndexError]. *)
Definition getitem {A} (v : list A) (i : nat) : result A :=
  match nth_error v i with
  | Some x => Ok x
  | None => Raise IndexError
  end.

(** [v[-1]]. *)
Definition getlast {A} (v : list A) : result A :=
  match rev v with
  | x :: _ => Ok x
  | [] => Raise IndexError
  end.

(** Elementwise binary operation with numpy's broadcasting of
    one-dimensional operands: equal lengths, or one operand of length 1. *)
Definition broadcast {A B C} (f : A -> B -> C) (u : list A) (v : list B)
  : result (list C) :=
  if length u =? length v then Ok (map (fun p => f (fst p) (snd p)) (combine u v))
  else match u, v with
       | [x], _ => Ok (map (f x) v)
       | _, [y] => Ok (map (fun x => f x y) u)
       | _, _ => Raise ValueError
       end.

(** [np.where(mask)[0]] for a one-dimensional mask: the positions holding
    [True], ascending. *)
Definition where0 (mask : list bool) : list nat :=
  filter (fun i => nth i mask false) (seq 0 (length mask)).

(** [v] with entry [i] replaced by [y]. *)
Definition update {A} (v : list A) (i : nat) (y : A) : list A :=
  firstn i v ++ y :: skipn (S i) v.

(** [v[i] op= ...] for an integer index. *)
Definition setitem {A} (f : A -> A) (v : list A) (i : nat) : result (list A) :=
  x <- getitem v i ;; Ok (update v i (f x)).

(** [np.any(v == 0)]. *)
Definition any_zero (v : list Z) : bool := existsb (Z.eqb 0) v.

(** Modelled from the spec: [randmax] of [src/utils.py], whose code is
    missing.  The spec gives its contract (ArgmaxTieBreak): given a vector,
    it returns an index attaining the maximum, chosen uniformly at random
    among all indices attaining it. *)
Definition is_argmax {A} (le : A -> A -> bool) (v : list A) (i : nat) : bool :=
  match nth_error v i with
  | Some x => forallb (fun y => le y x) v
  | None => false
  end.

Definition randmax {A} (le : A -> A -> bool) (v : list A) : result (dist nat) :=
  choice (filter (is_argmax le v) (seq 0 (length v))).

(** [min(v)] of a vector of counts. *)
Definition vec_min (l : list Z) : Z := fold_right Z.min (hd 0%Z l) l.

(** [np.argsort(v)]: the indices that sort [v] in ascending order.  The
    default sort of numpy is not stable, so the order among equal values is
    left open: only the contract is assumed. *)
Class ArgSort (R : Type) `{Scalar R} : Type := {
  argsort : list R -> list nat;
  argsort_perm : forall v, Permutation (argsort v) (seq 0 (length v));
  argsort_sorted : forall v,
    StronglySorted (fun i j => leb (nth i v zero) (nth j v zero) = true)
                   (argsort v)
}.

(** One sort meeting the contract, on which concrete players are run:
    insertion sort of the indices. *)
Fixpoint insert_by {R} `{Scalar R} (v : list R) (i : nat) (l : list nat)
  : list nat :=
  match l with
  | [] => [i]
  | j :: l' =>
      if leb (nth i v zero) (nth j v zero) then i :: l
      else j :: insert_by v i l'
  end.

Definition argsort_ins {R} `{Scalar R} (v : list R) : list nat :=
  fold_right (insert_by v) [] (seq 0 (length v)).

(** [a in arr] for [a] an integer or [None]: numpy compares elementwise, and
    no integer entry equals [None]. *)
Definition contains (a : option nat) (arr : list nat) : bool :=
  match a with
  | Some x => existsb (Nat.eqb x) arr
  | None => false
  end.

(** The number of [True] entries of a mask. *)
Definition count_true (mask : list bool) : nat :=
  length (filter (fun b => b) mask).

(** ** Player state *)

Section Strategies.

Context {R : Type} `{ArgSort R}.

Record Player : Type := mkPlayer {
  nb_arms : nat;
  nb_players : nat;
  nb_draws : list Z;
  cum_rewards : list R;
  t : Z;
  best_arms : list R;
  ucbs : list R;
  my_arm : option nat;
  has_collided : bool;
  is_on_chair : bool
}.

Definition set_my_arm (s : Player) (a : nat) : Player :=
  mkPlayer (nb_arms s) (nb_players s) (nb_draws s) (cum_rewards s) (t s)
           (best_arms s) (ucbs s) (Some a) (has_collided s) (is_on_chair s).

Definition set_ucbs (s : Player) (u : list R) : Player :=
  mkPlayer (nb_arms s) (nb_players s) (nb_draws s) (cum_rewards s) (t s)
           (best_arms s) u (my_arm s) (has_collided s) (is_on_chair s).

Definition set_is_on_chair (s : Player) (b : bool) : Player :=
  mkPlayer (nb_arms s) (nb_players s) (nb_draws s) (cum_rewards s) (t s)
           (best_arms s) (ucbs s) (my_arm s) (has_collided s) b.

(** [Player.__init__] followed by [Player.clear]. *)
Definition clear_state (K M : nat) : Player :=
  mkPlayer K M (repeat 0%Z K) (repeat zero K) 0%Z
           (repeat zero M) (repeat zero K) None false false.

Definition clear (s : Player) : Player := clear_state (nb_arms s) (nb_players s).

(** The index policy: [policy.compute_index(self)]. *)
Definition Policy : Type := Player -> list R.

(** The classes of the module; [PlayerBase] is the base class [Player]
    itself, whose [choose_arm_to_play] is not implemented. *)
Inductive variant : Type :=
| PlayerBase | PlayerRandTopOld | PlayerRandTop | PlayerMCTop | PlayerSelfish.

(** ** [Player.receive_reward]

    [my_arm] is an integer after a selection and [None] before the first
    one.  Indexing a numpy vector with [None] inserts an axis: [v[None]] is
    a view of the whole vector, so [v[None] += x] adds [x] to every
    entry. *)
Definition iadd_at {A} (f : A -> A) (v : list A) (i : option nat)
  : result (list A) :=
  match i with
  | Some a => setitem f v a
  | None => Ok (map f v)
  end.

Definition Player_receive_reward (s : Player) (reward : R) (collision : bool)
  : result Player :=
  cum <- iadd_at (fun x => add x reward) (cum_rewards s) (my_arm s) ;;
  nd <- iadd_at (fun n => (n + 1)%Z) (nb_draws s) (my_arm s) ;;
  Ok (mkPlayer (nb_arms s) (nb_players s) nd cum (t s + 1)%Z
               (best_arms s) (ucbs s) (my_arm s) collision (is_on_chair s)).

(** [PlayerSelfish.receive_reward]. *)
Definition PlayerSelfish_receive_reward (s : Player) (reward : R) (collision : bool)
  : result Player :=
  let reward_no_sensing := if collision then zero else reward in
  Player_receive_reward s reward_no_sensing false.

Definition receive_reward (v : variant) : Player -> R -> bool -> result Player :=
  match v with
  | PlayerSelfish => PlayerSelfish_receive_reward
  | _ => Player_receive_reward
  end.

(** ** [choose_arm_to_play] *)

(** The warm-start rule, the first statement of every variant. *)
Definition warm_start (s : Player) : result (dist Player) :=
  dmap (set_my_arm s) (randmax Z.leb (map Z.opp (nb_draws s))).

(** [np.argsort(ucbs_new)[::-1][:self.nb_players]]. *)
Definition top_arms (s : Player) (ucbs_new : list R) : list nat :=
  firstn (nb_players s) (rev (argsort ucbs_new)).

(** The two lines computing [new_arms_to_choose]:
    [min_ucb_of_best_arms = ucbs_new[best_arms[-1]]] and
    [np.where((self.ucbs <= self.ucbs[self.my_arm])
              & (ucbs_new >= min_ucb_of_best_arms))[0]].
    With [my_arm = None] the left mask has shape (1, K) and compares every
    entry with itself, and [np.where(...)[0]] lists row numbers, all 0. *)
Definition new_arms_to_choose (s : Player) (ucbs_new : list R)
  (best : list nat) : result (list nat) :=
  b <- getlast best ;;
  min_ucb_of_best_arms <- getitem ucbs_new b ;;
  let above := map (fun y => leb min_ucb_of_best_arms y) ucbs_new in
  match my_arm s with
  | Some a =>
      u <- getitem (ucbs s) a ;;
      mask <- broadcast andb (map (fun x => leb x u) (ucbs s)) above ;;
      Ok (where0 mask)
  | None =>
      mask <- broadcast andb (map (fun x => leb x x) (ucbs s)) above ;;
      Ok (repeat 0 (count_true mask))
  end.

Definition switch_to (s : Player) (ucbs_new : list R) (a : nat) : Player :=
  set_ucbs (set_my_arm s a) ucbs_new.

Definition PlayerRandTopOld_choose_arm_to_play (policy : Policy) (s : Player)
  : result (dist Player) :=
  if any_zero (nb_draws s) then warm_start s
  else
    let ucbs_new := policy s in
    let best := top_arms s ucbs_new in
    if negb (contains (my_arm s) best) then
      if has_collided s then
        dmap (switch_to s ucbs_new) (choice best)
      else
        cands <- new_arms_to_choose s ucbs_new best ;;
        dmap (switch_to s ucbs_new) (choice cands)
    else Ok [set_ucbs s ucbs_new].

Definition PlayerRandTop_choose_arm_to_play (policy : Policy) (s : Player)
  : result (dist Player) :=
  if any_zero (nb_draws s) then warm_start s
  else
    let ucbs_new := policy s in
    let best := top_arms s ucbs_new in
    if negb (contains (my_arm s) best) then
      cands <- new_arms_to_choose s ucbs_new best ;;
      dmap (switch_to s ucbs_new) (choice cands)
    else if has_collided s then
      dmap (switch_to s ucbs_new) (choice best)
    else Ok [set_ucbs s ucbs_new].

Definition PlayerMCTop_choose_arm_to_play (policy : Policy) (s : Player)
  : result (dist Player) :=
  if any_zero (nb_draws s) then warm_start s
  else
    let ucbs_new := policy s in
    let best := top_arms s ucbs_new in
    if negb (contains (my_arm s) best) then
      cands <- new_arms_to_choose s ucbs_new best ;;
      dmap (fun a => set_ucbs (set_is_on_chair (set_my_arm s a) false) ucbs_new)
           (choice cands)
    else if has_collided s && negb (is_on_chair s) then
      dmap (fun a => set_ucbs (set_is_on_chair (set_my_arm s a) false) ucbs_new)
           (choice best)
    else Ok [set_ucbs (set_is_on_chair s true) ucbs_new].

Definition PlayerSelfish_choose_arm_to_play (policy : Policy) (s : Player)
  : result (dist Player) :=
  if any_zero (nb_draws s) then warm_start s
  else
    dmap (fun a => let s1 := set_my_arm s a in set_ucbs s1 (policy s1))
         (randmax leb (ucbs s)).

Definition choose_arm_to_play (v : variant) (policy : Policy) (s : Player)
  : result (dist Player) :=
  match v with
  | PlayerBase => Raise NotImplementedError
  | PlayerRandTopOld => PlayerRandTopOld_choose_arm_to_play policy s
  | PlayerRandTop => PlayerRandTop_choose_arm_to_play policy s
  | PlayerMCTop => PlayerMCTop_choose_arm_to_play policy s
  | PlayerSelfish => PlayerSelfish_choose_arm_to_play policy s
  end.

(** ** The factory [strategy] *)

(** What the first argument of [strategy] can be: a class of the [Player]
    hierarchy, or a class outside of it. *)
Inductive pyclass : Type :=
| PlayerClass (v : variant)
| ForeignClass.

Definition issubclass_Player (c : pyclass) : bool :=
  match c with
  | PlayerClass _ => true
  | ForeignClass => false
  end.

Record Instance : Type := mkInstance {
  inst_class : variant;
  inst_policy : Policy;
  inst_state : Player
}.

Definition strategy (c : pyclass) (nb_arms nb_players : nat) (policy : Policy)
  : result (list Instance) :=
  match c with
  | PlayerClass v =>
      Ok (map (fun _ => mkInstance v policy (clear_state nb_arms nb_players))
              (seq 0 nb_players))
  | ForeignClass => Raise AssertionError
  end.

(** ** Runs of one player

    The states a player of class [v] goes through: created cleared, cleared
    again at will, asked for an arm, and told an outcome once it has an
    arm. *)
Inductive reachable (v : variant) (policy : Policy) (K M : nat)
  : Player -> Prop :=
| reach_init : reachable v policy K M (clear_state K M)
| reach_clear s :
    reachable v policy K M s -> reachable v policy K M (clear s)
| reach_choose s d s' :
    reachable v policy K M s ->
    choose_arm_to_play v policy s = Ok d -> In s' d ->
    reachable v policy K M s'
| reach_receive s reward collision s' :
    reachable v policy K M s -> my_arm s <> None ->
    receive_reward v s reward collision = Ok s' ->
    reachable v policy K M s'.

(** ** Notions used to state the properties *)

(** [np.argsort(v)[::-1]]: the arms by decreasing index. *)
Definition desc (v : list R) : list nat := rev (argsort v).

(** The words of the specification: the arms whose old index is at most the
    old index of the current arm, the arms whose new index is at least [m],
    the intersection of two sets of arms, and [m] being the minimum of the
    new index over a set of arms. *)
Definition previously_no_better (old : list R) (a : nat) : list nat :=
  filter (fun x => leb (nth x old zero) (nth a old zero)) (seq 0 (length old)).

Definition now_at_least (new : list R) (m : R) : list nat :=
  filter (fun x => leb m (nth x new zero)) (seq 0 (length new)).

Definition arms_inter (P Q : list nat) : list nat :=
  filter (fun x => existsb (Nat.eqb x) Q) P.

Definition is_min_over (v : list R) (S : list nat) (m : R) : Prop :=
  (exists b, In b S /\ m = nth b v zero) /\
  forall x, In x S -> leb m (nth x v zero) = true.

(** What the two lines compute when the current arm is defined. *)
Definition candidates (old new : list R) (a b : nat) : list nat :=
  filter (fun x => leb (nth x old zero) (nth a old zero)
                   && leb (nth b new zero) (nth x new zero))
         (seq 0 (length old)).

(** How many arms carry a strictly larger index than arm [a]. *)
Definition gt_count (u : list R) (a : nat) : nat :=
  length (filter (fun x => negb (leb (nth x u zero) (nth a u zero)))
                 (seq 0 (length u))).

(** The vectors have K entries, draw counts are not negative, [ucbs] still
    holds its initial zeros during warm-start, no outcome is recorded
    before an arm is chosen, and (but for PlayerSelfish) fewer than M arms are
    ranked strictly above the current arm in [ucbs]. *)
Definition Inv (K M : nat) (v : variant) (s : Player) : Prop :=
  nb_arms s = K /\ nb_players s = M /\
  length (nb_draws s) = K /\ length (cum_rewards s) = K /\
  length (ucbs s) = K /\
  Forall (fun n => (0 <= n)%Z) (nb_draws s) /\
  (any_zero (nb_draws s) = true -> ucbs s = repeat zero K) /\
  match my_arm s with
  | Some a => a < K /\ (v = PlayerSelfish \/ gt_count (ucbs s) a < M)
  | None => nb_draws s = repeat 0%Z K
  end.

(** The state [Player.receive_reward] leaves when the arm is defined. *)
Definition recorded (s : Player) (a : nat) (reward : R) (collision : bool)
  : Player :=
  mkPlayer (nb_arms s) (nb_players s)
           (update (nb_draws s) a (nth a (nb_draws s) 0%Z + 1)%Z)
           (update (cum_rewards s) a (add (nth a (cum_rewards s) zero) reward))
           (t s + 1)%Z (best_arms s) (ucbs s) (Some a) collision
           (is_on_chair s).

(** The state after a decision: the arm, the commitment flag and the index
    vector as given, everything else as in [s]. *)
Definition decided (s : Player) (arm : option nat) (chair : bool)
  (new : list R) : Player :=
  mkPlayer (nb_arms s) (nb_players s) (nb_draws s) (cum_rewards s) (t s)
           (best_arms s) new arm (has_collided s) chair.

(** The arms selected in the outcomes of a call. *)
Definition arms_of (d : dist Player) : list nat :=
  flat_map (fun s => match my_arm s with Some a => [a] | None => [] end) d.

(** The call draws the arm uniformly from [S]; the outcome for arm [a] is
    [f a]. *)
Definition draws_uniformly (S : list nat) (f : nat -> Player)
  (r : result (dist Player)) : Prop :=
  r = Ok (map f S) /\ uniform_over S (arms_of (map f S)).

(** The arms drawn the least. *)
Definition least_drawn (s : Player) : list nat :=
  filter (fun i => Z.eqb (nth i (nb_draws s) 0%Z) (vec_min (nb_draws s)))
         (seq 0 (length (nb_draws s))).

End Strategies.

(** ** Insertion sort meets the contract of [argsort] *)

Section InsertionArgsort.

Context {R : Type} `{Scalar R}.

Lemma insert_by_perm v i l : Permutation (insert_by v i l) (i :: l).
Proof.
  induction l as [|j l IH]; simpl.
  - apply Permutation_refl.
  - destruct (leb (nth i v zero) (nth j v zero)).
    + apply Permutation_refl.
    + eapply perm_trans; [apply perm_skip, IH | apply perm_swap].
Qed.

Lemma insert_by_sorted v i l :
  StronglySorted (fun a b => leb (nth a v zero) (nth b v zero) = true) l ->
  StronglySorted (fun a b => leb (nth a v zero) (nth b v zero) = true)
                 (insert_by v i l).
Proof.
  induction 1 as [|j l Hl IH Hj]; simpl.
  - constructor; [constructor | constructor].
  - destruct (leb (nth i v zero) (nth j v zero)) eqn:E.
    + constructor; [constructor; assumption |].
      constructor; [assumption |].
      rewrite Forall_forall in *. intros x Hx.
      eapply leb_trans; [exact E | auto].
    + constructor; [assumption |].
      rewrite Forall_forall in *. intros x Hx.
      apply (Permutation_in _ (insert_by_perm v i l)) in Hx.
      destruct Hx as [<- | Hx]; [| auto].
      destruct (leb_total (nth i v zero) (nth j v zero)); congruence.
Qed.

Lemma argsort_ins_perm v : Permutation (argsort_ins v) (seq 0 (length v)).
Proof.
  unfold argsort_ins. induction (seq 0 (length v)) as [|i l IH]; simpl.
  - constructor.
  - eapply perm_trans; [apply insert_by_perm | apply perm_skip, IH].
Qed.

Lemma argsort_ins_sorted v :
  StronglySorted (fun a b => leb (nth a v zero) (nth b v zero) = true)
                 (argsort_ins v).
Proof.
  unfold argsort_ins. induction (seq 0 (length v)) as [|i l IH]; simpl.
  - constructor.
  - apply insert_by_sorted, IH.
Qed.

End InsertionArgsort.

#[export] Instance ArgSort_ins {R} `{Scalar R} : ArgSort R :=
  {| argsort := argsort_ins;
     argsort_perm := argsort_ins_perm;
     argsort_sorted := argsort_ins_sorted |}.

(** ** Concrete players

    Integer-valued players on which the statements are exercised.  The
    policy ranks an arm by its cumulative reward. *)

Definition cum_policy : @Policy Z :=
  fun s => map (fun i => nth i (cum_rewards s) 0%Z) (seq 0 (nb_arms s)).

(** Two arms, one player, after the two rounds of warm-start: arm 0 paid 1,
    then arm 1 paid 3. *)
Definition two_arms_warm : @Player Z :=
  mkPlayer 2 1 [1; 1]%Z [1; 3]%Z 2%Z [0%Z] [0; 0]%Z (Some 1) false false.

(** The same player two calls later: it kept arm 1, which then paid -5 and
    fell behind arm 0.  [chair] is the commitment flag the variant left. *)
Definition two_arms_overtaken (chair : bool) : @Player Z :=
  mkPlayer 2 1 [1; 2]%Z [1; -2]%Z 3%Z [0%Z] [1; 3]%Z (Some 1) false chair.

(** Three arms, two players: the current arm 1 has left the top arms
    [0; 2], and arm 2 alone passes both bounds of the filter. *)
Definition three_arms_left_top (collided : bool) : @Player Z :=
  mkPlayer 3 2 [2; 2; 2]%Z [5; 1; 3]%Z 6%Z [0; 0]%Z [5; 3; 1]%Z (Some 1)
           collided false.

(** Two arms, one player: the current arm 0 was and is ranked below arm 1,
    and no arm passes both bounds of the filter. *)
Definition two_arms_stranded : @Player Z :=
  mkPlayer 2 1 [1; 1]%Z [1; 2]%Z 2%Z [0%Z] [1; 2]%Z (Some 0) false false.

(** The four variants the module defines, as arguments of the factory. *)
Definition is_defined_variant (c : pyclass) : bool :=
  match c with
  | PlayerClass PlayerBase => false
  | PlayerClass _ => true
  | ForeignClass => false
  end.

(** ** The top-M set, and players reached by calls out of order *)

(** The words of the specification for the top-M set of an index vector
    [v]: [S] lists, without repetition, [min M K] arms of [v], and no arm
    left out carries a larger index than an arm of [S]. *)
Definition is_top_set {R} `{Scalar R} (v : list R) (M : nat) (S : list nat)
  : Prop :=
  NoDup S /\
  length S = Nat.min M (length v) /\
  (forall x, In x S -> x < length v) /\
  (forall x y, In x S -> y < length v -> ~ In y S ->
               leb (nth y v zero) (nth x v zero) = true).

(** A policy that ranks arm 1 above arm 0 whatever was observed. *)
Definition fixed_policy : @Policy Z := fun _ => [1; 2]%Z.

(** Two arms, one player, an outcome recorded before any selection: both
    draw counts are 1 and the arm is still undefined. *)
Definition two_arms_unselected : @Player Z :=
  mkPlayer 2 1 [1; 1]%Z [0; 0]%Z 1%Z [0%Z] [0; 0]%Z None false false.

(** The same player after one call: it holds arm 0, ranked below arm 1. *)
Definition two_arms_misplaced : @Player Z :=
  mkPlayer 2 1 [1; 1]%Z [0; 0]%Z 1%Z [0%Z] [1; 2]%Z (Some 0) false false.

(** ** Further notions: display names, sums of counts, rounds *)

(** The [name] methods of the five classes. *)
Definition name (v : variant) : string :=
  match v with
  | PlayerBase => "Player"
  | PlayerRandTopOld => "RandTopMOld"
  | PlayerRandTop => "RandTopM"
  | PlayerMCTop => "MCTopM"
  | PlayerSelfish => "Selfish"
  end.

(** [sum(v)] of a vector of counts. *)
Definition vec_sum (l : list Z) : Z := fold_right Z.add 0%Z l.

(** [n] rounds of play: in each, the player is asked for an arm, one of the
    outcomes of the draw is realised, and the player is told a reward and a
    collision flag. *)
Inductive rounds {R} `{ArgSort R} (v : variant) (policy : @Policy R)
  : nat -> @Player R -> @Player R -> Prop :=
| rounds_done s : rounds v policy 0 s s
| rounds_play n s d s1 (reward : R) collision s2 s3 :
    choose_arm_to_play v policy s = Ok d -> In s1 d ->
    receive_reward v s1 reward collision = Ok s2 ->
    rounds v policy n s2 s3 ->
    rounds v policy (S n) s s3.

(** What [choose_arm_to_play] leaves alone: the configuration, the
    statistics, the round counter, the unused [best_arms] and the collision
    flag. *)
Definition untouched_by_choice {R} (s s' : @Player R) : Prop :=
  nb_arms s' = nb_arms s /\ nb_players s' = nb_players s /\
  nb_draws s' = nb_draws s /\ cum_rewards s' = cum_rewards s /\
  t s' = t s /\ best_arms s' = best_arms s /\
  has_collided s' = has_collided s.

(** The maximisers of the stored index vector. *)
Definition ucbs_maximisers {R} `{Scalar R} (s : @Player R) : list nat :=
  filter (fun i => forallb (fun y => leb y (nth i (ucbs s) zero)) (ucbs s))
         (seq 0 (length (ucbs s))).

(** * Properties *)

(** ** Lists, indices and masks *)

Lemma leb_refl {R} `{Scalar R} (x : R) : leb x x = true.
Proof. destruct (leb_total x x); assumption. Qed.

Lemma getitem_nth {A} (v : list A) (i : nat) (d : A) :
  i < length v -> getitem v i = Ok (nth i v d).
Proof.
  intros Hi. unfold getitem.
  rewrite (nth_error_nth' v d Hi). reflexivity.
Qed.

Lemma getitem_inv {A} (v : list A) (i : nat) (x d : A) :
  getitem v i = Ok x -> i < length v /\ x = nth i v d.
Proof.
  unfold getitem. destruct (nth_error v i) as [y|] eqn:E; [| discriminate].
  intros [= <-]. split.
  - apply nth_error_Some. congruence.
  - symmetry. apply nth_error_nth. exact E.
Qed.

Lemma getlast_snoc {A} (l : list A) (b : A) : getlast (l ++ [b]) = Ok b.
Proof. unfold getlast. rewrite rev_app_distr. reflexivity. Qed.

Lemma getlast_inv {A} (l : list A) (b : A) :
  getlast l = Ok b -> exists l', l = l' ++ [b].
Proof.
  unfold getlast. destruct (rev l) as [|x r] eqn:E; [discriminate |].
  intros [= ->]. exists (rev r).
  rewrite <- (rev_involutive l), E. reflexivity.
Qed.

Lemma getlast_nonempty {A} (l : list A) :
  l <> [] -> exists b, getlast l = Ok b.
Proof.
  intros Hl. unfold getlast. destruct (rev l) as [|x r] eqn:E.
  - exfalso. apply Hl. rewrite <- (rev_involutive l), E. reflexivity.
  - exists x. reflexivity.
Qed.

Lemma broadcast_same {A B C} (f : A -> B -> C) (u : list A) (v : list B) :
  length u = length v ->
  broadcast f u v = Ok (map (fun p => f (fst p) (snd p)) (combine u v)).
Proof.
  intros E. unfold broadcast.
  rewrite (proj2 (Nat.eqb_eq _ _) E). reflexivity.
Qed.

Lemma nth_zip {A B C} (f : A -> B -> C) u v i da db dc :
  length u = length v -> i < length u ->
  nth i (map (fun p => f (fst p) (snd p)) (combine u v)) dc
  = f (nth i u da) (nth i v db).
Proof.
  intros E Hi.
  rewrite (nth_indep _ dc (f (fst (da, db)) (snd (da, db)))).
  - rewrite (map_nth (fun p => f (fst p) (snd p))).
    rewrite combine_nth by exact E. reflexivity.
  - rewrite length_map, length_combine. lia.
Qed.

Lemma where0_In (mask : list bool) (i : nat) :
  In i (where0 mask) <-> i < length mask /\ nth i mask false = true.
Proof.
  unfold where0. rewrite filter_In, in_seq. intuition lia.
Qed.

Lemma where0_NoDup (mask : list bool) : NoDup (where0 mask).
Proof. apply NoDup_filter, seq_NoDup. Qed.

Lemma choice_ok {A} (l : list A) : l <> [] -> choice l = Ok l.
Proof. destruct l; [congruence | reflexivity]. Qed.

Lemma choice_inv {A} (l d : list A) : choice l = Ok d -> d = l /\ l <> [].
Proof. destruct l; [discriminate |]. intros [= <-]. split; congruence. Qed.

Lemma uniform_over_self (S : list nat) :
  S <> [] -> NoDup S -> uniform_over S S.
Proof.
  intros Hne Hnd. repeat split; try assumption.
  intros a. destruct (in_dec Nat.eq_dec a S) as [Hin | Hout].
  - rewrite (proj1 (NoDup_count_occ' Nat.eq_dec S) Hnd a Hin). lia.
  - rewrite (proj1 (count_occ_not_In Nat.eq_dec S a) Hout). reflexivity.
Qed.

(** ** Sorted lists *)

Section SortedFacts.

Variable A : Type.

Lemma StronglySorted_app_inv (rel : A -> A -> Prop) (l1 l2 : list A) :
  StronglySorted rel (l1 ++ l2) ->
  forall x y, In x l1 -> In y l2 -> rel x y.
Proof.
  induction l1 as [|a l1 IH]; simpl; intros Hs x y Hx Hy; [contradiction |].
  apply StronglySorted_inv in Hs. destruct Hs as [Hs Ha].
  destruct Hx as [<- | Hx].
  - rewrite Forall_forall in Ha. apply Ha, in_or_app. right. exact Hy.
  - apply IH; assumption.
Qed.

Lemma StronglySorted_snoc (rel : A -> A -> Prop) (l : list A) (a : A) :
  StronglySorted rel l -> (forall x, In x l -> rel x a) ->
  StronglySorted rel (l ++ [a]).
Proof.
  induction 1 as [|b l Hl IH Hb]; simpl; intros Ha.
  - constructor; constructor.
  - constructor.
    + apply IH. intros x Hx. apply Ha. right. exact Hx.
    + rewrite Forall_forall in *. intros x Hx.
      apply in_app_or in Hx. destruct Hx as [Hx | [<- | []]].
      * apply Hb, Hx.
      * apply Ha. left. reflexivity.
Qed.

Lemma StronglySorted_rev (rel : A -> A -> Prop) (l : list A) :
  StronglySorted rel l -> StronglySorted (fun x y => rel y x) (rev l).
Proof.
  induction 1 as [|a l Hl IH Ha]; simpl.
  - constructor.
  - apply StronglySorted_snoc; [exact IH |].
    intros x Hx. rewrite Forall_forall in Ha. apply Ha, in_rev, Hx.
Qed.

End SortedFacts.

(** ** Maximisers *)

Section Argmax.

Variable A : Type.
Variable le : A -> A -> bool.
Hypothesis le_total : forall x y, le x y = true \/ le y x = true.
Hypothesis le_trans :
  forall x y z, le x y = true -> le y z = true -> le x z = true.

Lemma is_argmax_spec (v : list A) (i : nat) (d : A) :
  is_argmax le v i = true <->
  i < length v /\ forall y, In y v -> le y (nth i v d) = true.
Proof.
  unfold is_argmax. destruct (nth_error v i) as [x|] eqn:E.
  - assert (Hi : i < length v) by (apply nth_error_Some; congruence).
    rewrite (nth_error_nth v i d E), forallb_forall. tauto.
  - apply nth_error_None in E. split; [discriminate | lia].
Qed.

Lemma argmax_exists (v : list A) (d : A) :
  v <> [] ->
  exists i, i < length v /\ forall y, In y v -> le y (nth i v d) = true.
Proof.
  induction v as [|x v IH]; [congruence |]. intros _.
  destruct v as [|x' v'].
  - exists 0. split; [simpl; lia |].
    intros y [<- | []]. destruct (le_total x x); assumption.
  - destruct IH as (i & Hi & Hmax); [discriminate |].
    destruct (le (nth i (x' :: v') d) x) eqn:E.
    + exists 0. split; [simpl; lia |].
      intros y [<- | Hy]; simpl nth.
      * destruct (le_total x x); assumption.
      * eapply le_trans; [apply Hmax, Hy | exact E].
    + exists (S i). split; [simpl in *; lia |].
      intros y [<- | Hy]; [| apply Hmax, Hy].
      change (nth (S i) (x :: x' :: v') d) with (nth i (x' :: v') d).
      destruct (le_total x (nth i (x' :: v') d)); congruence.
Qed.

Lemma randmax_In (v : list A) (dst : dist nat) (i : nat) (d : A) :
  randmax le v = Ok dst ->
  (In i dst <-> i < length v /\ forall y, In y v -> le y (nth i v d) = true).
Proof.
  unfold randmax. intros Hc. apply choice_inv in Hc. destruct Hc as [-> _].
  rewrite filter_In, in_seq, (is_argmax_spec v i d). intuition lia.
Qed.

Lemma randmax_total (v : list A) :
  v <> [] ->
  randmax le v = Ok (filter (is_argmax le v) (seq 0 (length v))) /\
  filter (is_argmax le v) (seq 0 (length v)) <> [].
Proof.
  intros Hv.
  assert (Hne : filter (is_argmax le v) (seq 0 (length v)) <> []).
  { destruct v as [|x v]; [congruence |].
    destruct (argmax_exists (x :: v) x Hv) as (i & Hi & Hmax).
    intros E.
    assert (Hin : In i (filter (is_argmax le (x :: v)) (seq 0 (length (x :: v))))).
    { rewrite filter_In, in_seq, (is_argmax_spec _ i x). split; [lia | auto]. }
    rewrite E in Hin. exact Hin. }
  split; [| exact Hne]. unfold randmax. apply choice_ok, Hne.
Qed.

End Argmax.

Lemma Zleb_total (x y : Z) : Z.leb x y = true \/ Z.leb y x = true.
Proof. rewrite !Z.leb_le. lia. Qed.

Lemma Zleb_trans (x y z : Z) :
  Z.leb x y = true -> Z.leb y z = true -> Z.leb x z = true.
Proof. rewrite !Z.leb_le. lia. Qed.

(** ** The top-M arms *)

Section TopArms.

Context {R : Type} `{ArgSort R}.

Lemma desc_perm (v : list R) : Permutation (desc v) (seq 0 (length v)).
Proof.
  unfold desc. eapply perm_trans.
  - apply Permutation_sym, Permutation_rev.
  - apply argsort_perm.
Qed.

Lemma desc_sorted (v : list R) :
  StronglySorted (fun i j => leb (nth j v zero) (nth i v zero) = true) (desc v).
Proof.
  unfold desc.
  apply (StronglySorted_rev _
           (fun i j => leb (nth i v zero) (nth j v zero) = true)).
  apply argsort_sorted.
Qed.

Lemma desc_NoDup (v : list R) : NoDup (desc v).
Proof.
  apply (Permutation_NoDup (Permutation_sym (desc_perm v))), seq_NoDup.
Qed.

Lemma desc_In (v : list R) (x : nat) : In x (desc v) <-> x < length v.
Proof.
  split; intros Hx.
  - apply (Permutation_in _ (desc_perm v)) in Hx. apply in_seq in Hx. lia.
  - apply (Permutation_in _ (Permutation_sym (desc_perm v))).
    apply in_seq. lia.
Qed.

Lemma top_arms_split (s : Player) (v : list R) :
  desc v = top_arms s v ++ skipn (nb_players s) (desc v).
Proof. unfold top_arms, desc. symmetry. apply firstn_skipn. Qed.

Lemma top_arms_bound (s : Player) (v : list R) (x : nat) :
  In x (top_arms s v) -> x < length v.
Proof.
  intros Hx. apply desc_In. rewrite (top_arms_split s v).
  apply in_or_app. left. exact Hx.
Qed.

Lemma top_arms_NoDup (s : Player) (v : list R) : NoDup (top_arms s v).
Proof.
  pose proof (desc_NoDup v) as Hnd. rewrite (top_arms_split s v) in Hnd.
  apply NoDup_app_remove_r in Hnd. exact Hnd.
Qed.

Lemma top_arms_length (s : Player) (v : list R) :
  length (top_arms s v) = Nat.min (nb_players s) (length v).
Proof.
  unfold top_arms. rewrite length_firstn, length_rev.
  rewrite (Permutation_length (argsort_perm v)), length_seq. reflexivity.
Qed.

Lemma top_arms_all (s : Player) (v : list R) (x : nat) :
  length v <= nb_players s -> x < length v -> In x (top_arms s v).
Proof.
  intros Hle Hx. unfold top_arms. rewrite firstn_all2.
  - apply desc_In, Hx.
  - rewrite length_rev, (Permutation_length (argsort_perm v)), length_seq.
    exact Hle.
Qed.

Lemma top_arms_nonempty (s : Player) (v : list R) :
  1 <= nb_players s -> 1 <= length v -> top_arms s v <> [].
Proof.
  intros HM HK E. pose proof (top_arms_length s v) as L.
  rewrite E in L. simpl in L. lia.
Qed.

(** The last of the top arms carries the least index value among them, and
    no arm outside of them has a larger one. *)
Lemma top_arms_last_min (s : Player) (v : list R) (b : nat) :
  getlast (top_arms s v) = Ok b ->
  In b (top_arms s v) /\
  forall x, In x (top_arms s v) -> leb (nth b v zero) (nth x v zero) = true.
Proof.
  intros Hb. destruct (getlast_inv _ _ Hb) as [l El].
  split; [rewrite El; apply in_or_app; right; left; reflexivity |].
  intros x Hx. rewrite El in Hx. apply in_app_or in Hx.
  destruct Hx as [Hx | [<- | []]]; [| apply leb_refl].
  pose proof (desc_sorted v) as Hs.
  rewrite (top_arms_split s v), El, <- app_assoc in Hs.
  apply (StronglySorted_app_inv _ _ _ _ Hs x b Hx).
  apply in_or_app. left. left. reflexivity.
Qed.

Lemma top_arms_outside (s : Player) (v : list R) (b x : nat) :
  getlast (top_arms s v) = Ok b -> x < length v -> ~ In x (top_arms s v) ->
  leb (nth x v zero) (nth b v zero) = true.
Proof.
  intros Hb Hx Hout.
  destruct (top_arms_last_min s v b Hb) as [Hin _].
  pose proof (desc_sorted v) as Hs. rewrite (top_arms_split s v) in Hs.
  apply (StronglySorted_app_inv _ _ _ _ Hs b x Hin).
  apply desc_In in Hx. rewrite (top_arms_split s v) in Hx.
  apply in_app_or in Hx. tauto.
Qed.

End TopArms.

(** ** The filtered candidate set *)

Lemma nth_map_lt {A B} (f : A -> B) (l : list A) (i : nat) (d : A) (d' : B) :
  i < length l -> nth i (map f l) d' = f (nth i l d).
Proof.
  intros Hi. rewrite (nth_indep _ d' (f d)) by (rewrite length_map; exact Hi).
  apply map_nth.
Qed.

Lemma filter_twice {A} (f g : A -> bool) (l : list A) :
  filter f (filter g l) = filter (fun x => g x && f x) l.
Proof.
  induction l as [|x l IH]; simpl; [reflexivity |].
  destruct (g x); simpl; [destruct (f x) |]; rewrite IH; reflexivity.
Qed.

Lemma existsb_eqb_In (x : nat) (l : list nat) :
  existsb (Nat.eqb x) l = true <-> In x l.
Proof.
  rewrite existsb_exists. split.
  - intros (y & Hy & E). apply Nat.eqb_eq in E. subst. exact Hy.
  - intros Hx. exists x. split; [exact Hx | apply Nat.eqb_refl].
Qed.

Section Candidates.

Context {R : Type} `{ArgSort R}.

Lemma new_arms_to_choose_eq (s : Player) (new : list R) (a b : nat) :
  my_arm s = Some a -> a < length (ucbs s) ->
  length new = length (ucbs s) ->
  getlast (top_arms s new) = Ok b ->
  new_arms_to_choose s new (top_arms s new)
  = Ok (candidates (ucbs s) new a b).
Proof.
  intros Ha Hlt Hlen Hb. unfold new_arms_to_choose.
  rewrite Hb. simpl bind.
  destruct (top_arms_last_min s new b Hb) as [Hin _].
  apply top_arms_bound in Hin.
  rewrite (getitem_nth new b zero Hin). simpl bind. rewrite Ha.
  rewrite (getitem_nth (ucbs s) a zero Hlt). simpl bind.
  rewrite broadcast_same by (rewrite !length_map; congruence).
  simpl bind. f_equal. unfold where0, candidates.
  rewrite length_map, length_combine, !length_map, Hlen, Nat.min_id.
  apply filter_ext_in. intros x Hx. apply in_seq in Hx.
  rewrite (nth_zip andb _ _ x false false false)
    by (rewrite !length_map; (congruence || lia)).
  rewrite (nth_map_lt _ (ucbs s) x zero false) by lia.
  rewrite (nth_map_lt _ new x zero false) by lia.
  reflexivity.
Qed.

Lemma candidates_In (old new : list R) (a b x : nat) :
  In x (candidates old new a b) <->
  x < length old /\ leb (nth x old zero) (nth a old zero) = true
  /\ leb (nth b new zero) (nth x new zero) = true.
Proof.
  unfold candidates. rewrite filter_In, in_seq, andb_true_iff. intuition lia.
Qed.

Lemma candidates_NoDup (old new : list R) (a b : nat) :
  NoDup (candidates old new a b).
Proof. apply NoDup_filter, seq_NoDup. Qed.

Lemma candidates_inter (old new : list R) (a b : nat) (m : R) :
  length new = length old ->
  leb m (nth b new zero) = true -> leb (nth b new zero) m = true ->
  candidates old new a b
  = arms_inter (previously_no_better old a) (now_at_least new m).
Proof.
  intros Hlen Hmb Hbm. unfold arms_inter, previously_no_better.
  rewrite filter_twice. apply filter_ext_in. intros x Hx.
  apply in_seq in Hx. f_equal.
  destruct (existsb (Nat.eqb x) (now_at_least new m)) eqn:E.
  - apply existsb_eqb_In in E. unfold now_at_least in E.
    apply filter_In in E. destruct E as [_ E].
    eapply leb_trans; [exact Hbm | exact E].
  - destruct (leb (nth b new zero) (nth x new zero)) eqn:E'; [| reflexivity].
    rewrite <- E. symmetry. apply existsb_eqb_In.
    unfold now_at_least. apply filter_In. split.
    + apply in_seq. lia.
    + eapply leb_trans; [exact Hmb | exact E'].
Qed.

End Candidates.

(** ** Updating one entry *)

Lemma update_length {A} (v : list A) (a : nat) (y : A) :
  a < length v -> length (update v a y) = length v.
Proof.
  intros Ha. unfold update. rewrite length_app, length_firstn. cbn [length].
  rewrite length_skipn. lia.
Qed.

Lemma update_nth {A} (v : list A) (a j : nat) (y d : A) :
  a < length v ->
  nth j (update v a y) d = if Nat.eqb j a then y else nth j v d.
Proof.
  unfold update.
  revert v j. induction a as [|a IH]; intros [|x v] j Ha; simpl in Ha; try lia.
  - destruct j; reflexivity.
  - destruct j as [|j]; [reflexivity |].
    change (nth j (firstn a v ++ y :: skipn (S a) v) d
            = if Nat.eqb j a then y else nth j v d).
    apply IH. lia.
Qed.

Lemma setitem_ok {A} (f : A -> A) (v : list A) (a : nat) (d : A) :
  a < length v -> setitem f v a = Ok (update v a (f (nth a v d))).
Proof.
  intros Ha. unfold setitem. rewrite (getitem_nth v a d Ha). reflexivity.
Qed.

Lemma setitem_inv {A} (f : A -> A) (v v' : list A) (a : nat) (d : A) :
  setitem f v a = Ok v' ->
  a < length v /\ v' = update v a (f (nth a v d)).
Proof.
  unfold setitem. destruct (getitem v a) as [x|e] eqn:E; [| discriminate].
  apply (getitem_inv v a x d) in E. destruct E as [Ha ->].
  simpl. intros [= <-]. split; [exact Ha | reflexivity].
Qed.

Lemma any_zero_true (v : list Z) :
  any_zero v = true <-> exists j, j < length v /\ nth j v 0%Z = 0%Z.
Proof.
  unfold any_zero. rewrite existsb_exists. split.
  - intros (x & Hx & E). apply Z.eqb_eq in E. subst x.
    destruct (In_nth v 0%Z 0%Z Hx) as (j & Hj & Ej). eauto.
  - intros (j & Hj & Ej). exists 0%Z. split; [| reflexivity].
    rewrite <- Ej. apply nth_In, Hj.
Qed.

Lemma any_zero_false (v : list Z) :
  any_zero v = false -> forall j, j < length v -> nth j v 0%Z <> 0%Z.
Proof.
  intros E j Hj Ej.
  assert (any_zero v = true) by (apply any_zero_true; eauto). congruence.
Qed.

Lemma any_zero_repeat (K : nat) : 1 <= K -> any_zero (repeat 0%Z K) = true.
Proof. destruct K; [lia | reflexivity]. Qed.

(** ** Arms ranked above the current one *)

Section Ranking.

Context {R : Type} `{ArgSort R}.

Lemma gt_count_zeros (K a : nat) : gt_count (repeat zero K) a = 0.
Proof.
  unfold gt_count.
  rewrite (filter_ext_in _ (fun _ => false)); [induction (seq _ _); auto |].
  intros x _. apply negb_false_iff.
  assert (E : forall i, nth i (repeat zero K) zero = zero).
  { intros i. destruct (Nat.lt_ge_cases i K) as [Hi | Hi].
    - apply nth_repeat_lt. exact Hi.
    - apply nth_overflow. rewrite repeat_length. exact Hi. }
  rewrite !E. apply leb_refl.
Qed.

(** An arm at least as good as the last of the top arms has fewer than M
    arms strictly above it. *)
Lemma gt_count_top (s : Player) (new : list R) (a b : nat) :
  getlast (top_arms s new) = Ok b ->
  leb (nth b new zero) (nth a new zero) = true ->
  gt_count new a < nb_players s.
Proof.
  intros Hb Hba. destruct (getlast_inv _ _ Hb) as [l El].
  pose proof (top_arms_NoDup s new) as Hnd.
  pose proof (top_arms_length s new) as Hlen.
  rewrite El in Hnd, Hlen. rewrite length_app in Hlen. simpl in Hlen.
  assert (Hincl : incl (filter (fun x => negb (leb (nth x new zero) (nth a new zero)))
                               (seq 0 (length new))) l).
  { intros x Hx. apply filter_In in Hx. destruct Hx as [Hx Hgt].
    apply in_seq in Hx. apply negb_true_iff in Hgt.
    destruct (in_dec Nat.eq_dec x (top_arms s new)) as [Hin | Hout].
    - rewrite El in Hin. apply in_app_or in Hin.
      destruct Hin as [Hin | [<- | []]]; [exact Hin | congruence].
    - assert (Hxb := top_arms_outside s new b x Hb (proj2 Hx) Hout).
      rewrite (leb_trans _ _ _ Hxb Hba) in Hgt. discriminate. }
  apply NoDup_incl_length in Hincl; [| apply NoDup_filter, seq_NoDup].
  unfold gt_count. lia.
Qed.

(** Pigeonhole: when fewer than M arms were ranked strictly above the
    current arm and the current arm has left the top arms, one of the top
    arms is a candidate. *)
Lemma candidates_nonempty (s : Player) (new : list R) (a b : nat) :
  a < length (ucbs s) -> length new = length (ucbs s) ->
  gt_count (ucbs s) a < nb_players s ->
  ~ In a (top_arms s new) ->
  getlast (top_arms s new) = Ok b ->
  candidates (ucbs s) new a b <> [].
Proof.
  intros Ha Hlen Hcount Hout Hb Hnil.
  destruct (top_arms_last_min s new b Hb) as [_ Hmin].
  assert (Hincl : incl (top_arms s new)
                       (filter (fun x => negb (leb (nth x (ucbs s) zero)
                                                   (nth a (ucbs s) zero)))
                               (seq 0 (length (ucbs s))))).
  { intros x Hx. apply filter_In. split.
    - apply in_seq. apply top_arms_bound in Hx. lia.
    - apply negb_true_iff.
      destruct (leb (nth x (ucbs s) zero) (nth a (ucbs s) zero)) eqn:E;
        [| reflexivity].
      exfalso.
      assert (Hc : In x (candidates (ucbs s) new a b)).
      { apply candidates_In. pose proof (top_arms_bound s new x Hx).
        repeat split; [lia | exact E | apply Hmin, Hx]. }
      rewrite Hnil in Hc. exact Hc. }
  apply NoDup_incl_length in Hincl; [| apply top_arms_NoDup].
  rewrite top_arms_length in Hincl. unfold gt_count in Hcount.
  apply Hout, top_arms_all; lia.
Qed.

End Ranking.

(** ** An invariant of the runs *)

Section Runs.

Context {R : Type} `{ArgSort R}.

Variable policy : @Policy R.
Variables K M : nat.
Hypothesis K_pos : 1 <= K.
Hypothesis M_pos : 1 <= M.
Hypothesis policy_length : forall s, length (policy s) = nb_arms s.

Lemma Inv_clear_state (v : variant) : Inv K M v (clear_state K M).
Proof.
  unfold Inv, clear_state. simpl. rewrite !repeat_length.
  repeat split; try reflexivity.
  apply Forall_forall. intros x Hx. apply repeat_spec in Hx. lia.
Qed.

Lemma Inv_my_arm (v : variant) (s : Player) :
  Inv K M v s -> any_zero (nb_draws s) = false ->
  exists a, my_arm s = Some a /\ a < K /\
            (v = PlayerSelfish \/ gt_count (ucbs s) a < M).
Proof.
  intros (_ & _ & _ & _ & _ & _ & _ & Ha) Hz.
  destruct (my_arm s) as [a|].
  - exists a. tauto.
  - rewrite Ha, any_zero_repeat in Hz by exact K_pos. discriminate.
Qed.

Lemma warm_start_spec (s : @Player R) :
  length (nb_draws s) = K ->
  exists l, warm_start s = Ok (map (set_my_arm s) l) /\ l <> [] /\
            randmax Z.leb (map Z.opp (nb_draws s)) = Ok l /\
            forall a, In a l -> a < K.
Proof.
  intros Hlen. unfold warm_start.
  assert (Hne : map Z.opp (nb_draws s) <> []).
  { destruct (nb_draws s); simpl in *; [lia | discriminate]. }
  destruct (randmax_total Z Z.leb Zleb_total Zleb_trans _ Hne) as [E Hl].
  rewrite E. eexists. repeat split; [exact Hl |].
  intros a Ha. apply filter_In in Ha. destruct Ha as [Ha _].
  apply in_seq in Ha. rewrite length_map in Ha. lia.
Qed.

Lemma Inv_warm_start (v : variant) (s : Player) (a : nat) :
  Inv K M v s -> any_zero (nb_draws s) = true -> a < K ->
  Inv K M v (set_my_arm s a).
Proof.
  intros (I1 & I2 & I3 & I4 & I5 & I6 & I7 & I8) Hz Ha.
  unfold Inv. simpl. repeat split; try assumption.
  right. rewrite (I7 Hz), gt_count_zeros. lia.
Qed.

(** A state that differs from [s] by the refreshed [ucbs], by an arm at
    least as good as the last of the top arms, and possibly by flags. *)
Lemma Inv_switch (v : variant) (s s' : Player) (new : list R) (a b : nat) :
  Inv K M v s -> any_zero (nb_draws s) = false ->
  length new = K -> a < K ->
  getlast (top_arms s new) = Ok b ->
  leb (nth b new zero) (nth a new zero) = true ->
  nb_arms s' = nb_arms s -> nb_players s' = nb_players s ->
  nb_draws s' = nb_draws s -> cum_rewards s' = cum_rewards s ->
  ucbs s' = new -> my_arm s' = Some a ->
  Inv K M v s'.
Proof.
  intros (I1 & I2 & I3 & I4 & I5 & I6 & I7 & I8) Hz Hlen Ha Hb Hba
         E1 E2 E3 E4 E5 E6.
  unfold Inv. rewrite E1, E2, E3, E4, E5, E6.
  repeat split; try assumption.
  - rewrite Hz. discriminate.
  - right. rewrite <- I2. apply (gt_count_top s new a b Hb Hba).
Qed.

Lemma contains_In (a : nat) (l : list nat) :
  contains (Some a) l = true <-> In a l.
Proof. apply existsb_eqb_In. Qed.

Lemma contains_not_In (a : nat) (l : list nat) :
  contains (Some a) l = false <-> ~ In a l.
Proof.
  rewrite <- contains_In. destruct (contains (Some a) l); intuition congruence.
Qed.

(** What holds when a top-M variant gets past its warm-start test. *)
Lemma after_warm_start (v : variant) (s : Player) :
  Inv K M v s -> v <> PlayerSelfish -> any_zero (nb_draws s) = false ->
  exists a b,
    my_arm s = Some a /\ a < K /\ length (policy s) = K /\
    getlast (top_arms s (policy s)) = Ok b /\
    top_arms s (policy s) <> [] /\
    new_arms_to_choose s (policy s) (top_arms s (policy s))
    = Ok (candidates (ucbs s) (policy s) a b) /\
    (~ In a (top_arms s (policy s)) ->
     candidates (ucbs s) (policy s) a b <> []).
Proof.
  intros HI Hv Hz.
  destruct (Inv_my_arm v s HI Hz) as (a & Ha & HaK & Hcount).
  destruct HI as (I1 & I2 & I3 & I4 & I5 & I6 & I7 & I8).
  assert (Hlen : length (policy s) = K) by (rewrite policy_length; exact I1).
  assert (Hne : top_arms s (policy s) <> [])
    by (apply top_arms_nonempty; lia).
  destruct (getlast_nonempty _ Hne) as [b Hb].
  exists a, b. repeat split; try assumption.
  - apply new_arms_to_choose_eq; (assumption || lia).
  - intros Hout. destruct Hcount as [-> | Hcount]; [congruence |].
    apply candidates_nonempty; (assumption || lia).
Qed.

Lemma Inv_from_top (v : variant) (s s' : Player) (a b : nat) :
  Inv K M v s -> any_zero (nb_draws s) = false ->
  getlast (top_arms s (policy s)) = Ok b ->
  In a (top_arms s (policy s)) ->
  nb_arms s' = nb_arms s -> nb_players s' = nb_players s ->
  nb_draws s' = nb_draws s -> cum_rewards s' = cum_rewards s ->
  ucbs s' = policy s -> my_arm s' = Some a ->
  Inv K M v s' /\ exists a', my_arm s' = Some a' /\ a' < K.
Proof.
  intros HI Hz Hb Hin E1 E2 E3 E4 E5 E6.
  assert (Hlen : length (policy s) = K)
    by (rewrite policy_length; apply HI).
  assert (HaK : a < K) by (rewrite <- Hlen; eapply top_arms_bound, Hin).
  split; [| eauto].
  apply (Inv_switch v s s' (policy s) a b); try assumption.
  apply (top_arms_last_min s (policy s) b Hb), Hin.
Qed.

Lemma Inv_from_candidates (v : variant) (s s' : Player) (a0 a b : nat) :
  Inv K M v s -> any_zero (nb_draws s) = false ->
  getlast (top_arms s (policy s)) = Ok b ->
  In a (candidates (ucbs s) (policy s) a0 b) ->
  nb_arms s' = nb_arms s -> nb_players s' = nb_players s ->
  nb_draws s' = nb_draws s -> cum_rewards s' = cum_rewards s ->
  ucbs s' = policy s -> my_arm s' = Some a ->
  Inv K M v s' /\ exists a', my_arm s' = Some a' /\ a' < K.
Proof.
  intros HI Hz Hb Hin E1 E2 E3 E4 E5 E6.
  assert (Hlen : length (policy s) = K)
    by (rewrite policy_length; apply HI).
  apply candidates_In in Hin. destruct Hin as (HaK & _ & Hba).
  assert (Hu : length (ucbs s) = K) by apply HI.
  split; [| exists a; split; [assumption | lia]].
  apply (Inv_switch v s s' (policy s) a b); (assumption || lia).
Qed.

Lemma map_nonempty {A B} (f : A -> B) (l : list A) : l <> [] -> map f l <> [].
Proof. destruct l; [congruence | discriminate]. Qed.

Ltac outcome_of Hs' :=
  apply in_map_iff in Hs'; destruct Hs' as (?a' & <- & ?Ha').

(** Every call on a state of the invariant returns, and its outcomes are
    states of the invariant with a valid arm. *)
Lemma choose_step (v : variant) (s : Player) :
  Inv K M v s -> v <> PlayerBase ->
  exists d, choose_arm_to_play v policy s = Ok d /\ d <> [] /\
            forall s', In s' d ->
                       Inv K M v s' /\ exists a, my_arm s' = Some a /\ a < K.
Proof.
  intros HI Hv.
  destruct (any_zero (nb_draws s)) eqn:Hz.
  { (* warm-start, the same in the four classes *)
    destruct (warm_start_spec s) as (l & E & Hl & _ & Hbound); [apply HI |].
    exists (map (set_my_arm s) l).
    split; [| split; [apply map_nonempty, Hl |]].
    - destruct v; try congruence; simpl;
        [ unfold PlayerRandTopOld_choose_arm_to_play
        | unfold PlayerRandTop_choose_arm_to_play
        | unfold PlayerMCTop_choose_arm_to_play
        | unfold PlayerSelfish_choose_arm_to_play ]; rewrite Hz; exact E.
    - intros s' Hs'. outcome_of Hs'. split.
      + apply Inv_warm_start; auto.
      + exists a'. split; [reflexivity | auto]. }
  destruct v; try congruence.
  - (* PlayerRandTopOld *)
    destruct (after_warm_start PlayerRandTopOld s HI ltac:(discriminate) Hz)
      as (a & b & Ha & HaK & Hlen & Hb & Hne & Ec & Hc).
    simpl. unfold PlayerRandTopOld_choose_arm_to_play. rewrite Hz, Ha.
    destruct (contains (Some a) (top_arms s (policy s))) eqn:Hin; simpl.
    + apply contains_In in Hin. eexists. split; [reflexivity |].
      split; [discriminate |]. intros s' [<- | []].
      apply (Inv_from_top PlayerRandTopOld s _ a b); auto.
    + apply contains_not_In in Hin. pose proof (Hc Hin) as Hcne.
      destruct (has_collided s).
      * rewrite (choice_ok _ Hne). simpl. eexists. split; [reflexivity |].
        split; [apply map_nonempty, Hne |]. intros s' Hs'. outcome_of Hs'.
        apply (Inv_from_top PlayerRandTopOld s _ a' b); auto.
      * rewrite Ec. simpl. rewrite (choice_ok _ Hcne). simpl.
        eexists. split; [reflexivity |].
        split; [apply map_nonempty, Hcne |]. intros s' Hs'. outcome_of Hs'.
        apply (Inv_from_candidates PlayerRandTopOld s _ a a' b); auto.
  - (* PlayerRandTop *)
    destruct (after_warm_start PlayerRandTop s HI ltac:(discriminate) Hz)
      as (a & b & Ha & HaK & Hlen & Hb & Hne & Ec & Hc).
    simpl. unfold PlayerRandTop_choose_arm_to_play. rewrite Hz, Ha.
    destruct (contains (Some a) (top_arms s (policy s))) eqn:Hin; simpl.
    + apply contains_In in Hin. destruct (has_collided s).
      * rewrite (choice_ok _ Hne). simpl. eexists. split; [reflexivity |].
        split; [apply map_nonempty, Hne |]. intros s' Hs'. outcome_of Hs'.
        apply (Inv_from_top PlayerRandTop s _ a' b); auto.
      * eexists. split; [reflexivity |].
        split; [discriminate |]. intros s' [<- | []].
        apply (Inv_from_top PlayerRandTop s _ a b); auto.
    + apply contains_not_In in Hin. pose proof (Hc Hin) as Hcne.
      rewrite Ec. simpl. rewrite (choice_ok _ Hcne). simpl.
      eexists. split; [reflexivity |].
      split; [apply map_nonempty, Hcne |]. intros s' Hs'. outcome_of Hs'.
      apply (Inv_from_candidates PlayerRandTop s _ a a' b); auto.
  - (* PlayerMCTop *)
    destruct (after_warm_start PlayerMCTop s HI ltac:(discriminate) Hz)
      as (a & b & Ha & HaK & Hlen & Hb & Hne & Ec & Hc).
    simpl. unfold PlayerMCTop_choose_arm_to_play. rewrite Hz, Ha.
    destruct (contains (Some a) (top_arms s (policy s))) eqn:Hin; simpl.
    + apply contains_In in Hin.
      destruct (has_collided s && negb (is_on_chair s)).
      * rewrite (choice_ok _ Hne). simpl. eexists. split; [reflexivity |].
        split; [apply map_nonempty, Hne |]. intros s' Hs'. outcome_of Hs'.
        apply (Inv_from_top PlayerMCTop s _ a' b); auto.
      * eexists. split; [reflexivity |].
        split; [discriminate |]. intros s' [<- | []].
        apply (Inv_from_top PlayerMCTop s _ a b); auto.
    + apply contains_not_In in Hin. pose proof (Hc Hin) as Hcne.
      rewrite Ec. simpl. rewrite (choice_ok _ Hcne). simpl.
      eexists. split; [reflexivity |].
      split; [apply map_nonempty, Hcne |]. intros s' Hs'. outcome_of Hs'.
      apply (Inv_from_candidates PlayerMCTop s _ a a' b); auto.
  - (* PlayerSelfish *)
    destruct HI as (I1 & I2 & I3 & I4 & I5 & I6 & I7 & I8).
    simpl. unfold PlayerSelfish_choose_arm_to_play. rewrite Hz.
    assert (Hu : ucbs s <> []).
    { destruct (ucbs s); simpl in *; [lia | discriminate]. }
    destruct (randmax_total R leb leb_total leb_trans _ Hu) as [E Hl].
    rewrite E. simpl. eexists. split; [reflexivity |].
    split; [apply map_nonempty, Hl |]. intros s' Hs'. outcome_of Hs'.
    apply filter_In in Ha'. destruct Ha' as [Ha' _]. apply in_seq in Ha'.
    split; [| exists a'; split; [reflexivity | lia]].
    unfold Inv. simpl. rewrite policy_length. simpl.
    repeat split; try assumption; try lia.
    + rewrite Hz. discriminate.
    + left. reflexivity.
Qed.

End Runs.

(** ** Bookkeeping *)

Section Bookkeeping.

Context {R : Type} `{ArgSort R}.

Lemma Player_receive_reward_arm (s : Player) (a : nat) reward collision :
  my_arm s = Some a ->
  a < length (cum_rewards s) -> a < length (nb_draws s) ->
  Player_receive_reward s reward collision = Ok (recorded s a reward collision).
Proof.
  intros Ha Hc Hd. unfold Player_receive_reward. rewrite Ha. simpl iadd_at.
  rewrite (setitem_ok _ (cum_rewards s) a zero Hc). simpl bind.
  rewrite (setitem_ok _ (nb_draws s) a 0%Z Hd). reflexivity.
Qed.

Lemma receive_reward_arm (v : variant) (s : Player) (a : nat) reward collision :
  my_arm s = Some a ->
  a < length (cum_rewards s) -> a < length (nb_draws s) ->
  exists r' c', receive_reward v s reward collision = Ok (recorded s a r' c').
Proof.
  intros Ha Hc Hd.
  destruct v; simpl; unfold PlayerSelfish_receive_reward;
    rewrite (Player_receive_reward_arm s a _ _ Ha Hc Hd); eauto.
Qed.

Variable policy : @Policy R.
Variables K M : nat.

Lemma Inv_recorded (v : variant) (s : Player) (a : nat) reward collision :
  Inv K M v s -> my_arm s = Some a ->
  Inv K M v (recorded s a reward collision).
Proof.
  intros (I1 & I2 & I3 & I4 & I5 & I6 & I7 & I8) Ha.
  rewrite Ha in I8. destruct I8 as [HaK Hcount].
  unfold Inv, recorded. simpl.
  rewrite !update_length by lia.
  repeat split; try assumption.
  - apply Forall_forall. intros x Hx.
    destruct (In_nth _ _ 0%Z Hx) as (j & Hj & <-).
    rewrite update_length in Hj by lia.
    rewrite update_nth by lia.
    rewrite Forall_forall in I6.
    destruct (Nat.eqb j a).
    + assert (0 <= nth a (nb_draws s) 0)%Z by (apply I6, nth_In; lia). lia.
    + apply I6, nth_In. exact Hj.
  - intros Hz. apply I7. apply any_zero_true in Hz.
    destruct Hz as (j & Hj & Ej).
    rewrite update_length in Hj by lia.
    rewrite update_nth in Ej by lia.
    destruct (Nat.eqb j a).
    + rewrite Forall_forall in I6.
      assert (0 <= nth a (nb_draws s) 0)%Z by (apply I6, nth_In; lia). lia.
    + apply any_zero_true. eauto.
Qed.

Lemma Inv_receive (v : variant) (s s' : Player) reward collision :
  Inv K M v s -> my_arm s <> None ->
  receive_reward v s reward collision = Ok s' -> Inv K M v s'.
Proof.
  intros HI Hsome E.
  destruct (my_arm s) as [a|] eqn:Ha; [| congruence].
  pose proof HI as (I1 & I2 & I3 & I4 & I5 & I6 & I7 & I8).
  rewrite Ha in I8.
  destruct (receive_reward_arm v s a reward collision Ha) as (r' & c' & E');
    try lia.
  rewrite E' in E. injection E as <-. apply Inv_recorded; assumption.
Qed.

Hypothesis K_pos : 1 <= K.
Hypothesis M_pos : 1 <= M.
Hypothesis policy_length : forall s, length (policy s) = nb_arms s.

(** Every state of a run satisfies the invariant. *)
Lemma reachable_Inv (v : variant) (s : Player) :
  reachable v policy K M s -> Inv K M v s.
Proof.
  induction 1 as [| s _ IH | s d s' _ IH E Hin | s r c s' _ IH Hsome E].
  - apply Inv_clear_state; assumption.
  - unfold clear. destruct IH as (-> & -> & _).
    apply Inv_clear_state; assumption.
  - destruct v; [discriminate | | | |];
      (destruct (choose_step policy K M K_pos M_pos policy_length _ s IH)
         as (d' & E' & _ & Hd'); [discriminate |];
       rewrite E' in E; injection E as <-; apply Hd', Hin).
  - eapply Inv_receive; eassumption.
Qed.

End Bookkeeping.

(** ** Outcomes of a decision *)

Section Outcomes.

Context {R : Type} `{ArgSort R}.

Lemma arms_of_map (f : nat -> @Player R) (l : list nat) :
  (forall a, my_arm (f a) = Some a) -> arms_of (map f l) = l.
Proof.
  intros Hf. unfold arms_of. induction l as [|a l IH]; simpl; [reflexivity |].
  rewrite Hf. simpl. f_equal. exact IH.
Qed.

Lemma draws_uniformly_intro (S : list nat) (f : nat -> @Player R) :
  S <> [] -> NoDup S -> (forall a, my_arm (f a) = Some a) ->
  draws_uniformly S f (dmap f (choice S)).
Proof.
  intros Hne Hnd Hf. unfold draws_uniformly.
  rewrite (choice_ok _ Hne), (arms_of_map f S Hf).
  split; [reflexivity | apply uniform_over_self; assumption].
Qed.

End Outcomes.

(** ** The minimum of the draw counts *)

Lemma vec_min_le (l : list Z) (x : Z) : In x l -> (vec_min l <= x)%Z.
Proof.
  unfold vec_min. generalize (hd 0%Z l). induction l as [|y l IH]; simpl.
  - contradiction.
  - intros z [-> | Hx]; [lia |]. specialize (IH z Hx). lia.
Qed.

Lemma vec_min_In (l : list Z) : l <> [] -> In (vec_min l) l.
Proof.
  unfold vec_min. destruct l as [|y l]; [congruence |]. intros _.
  cbn [hd]. assert (G : forall l' z, In z (y :: l) ->
                         incl l' (y :: l) ->
                         In (fold_right Z.min z l') (y :: l)).
  { induction l' as [|w l' IH]; simpl; intros z Hz Hincl; [exact Hz |].
    assert (Hw : In w (y :: l)) by (apply Hincl; left; reflexivity).
    assert (Hr : In (fold_right Z.min z l') (y :: l)).
    { apply IH; [exact Hz |]. intros u Hu. apply Hincl. right. exact Hu. }
    destruct (Z.min_spec w (fold_right Z.min z l')) as [[_ ->] | [_ ->]];
      assumption. }
  apply G; [left; reflexivity | apply incl_refl].
Qed.

Section WarmStart.

Context {R : Type} `{ArgSort R}.

Lemma argmax_opp_least_drawn (s : @Player R) :
  filter (is_argmax Z.leb (map Z.opp (nb_draws s)))
         (seq 0 (length (map Z.opp (nb_draws s))))
  = least_drawn s.
Proof.
  unfold least_drawn. rewrite length_map. apply filter_ext_in.
  intros i Hi. apply in_seq in Hi.
  assert (Hne : nb_draws s <> []) by (destruct (nb_draws s); simpl in *; [lia | discriminate]).
  apply eq_true_iff_eq.
  rewrite (is_argmax_spec Z Z.leb (map Z.opp (nb_draws s)) i 0%Z), Z.eqb_eq.
  rewrite length_map, (nth_map_lt Z.opp (nb_draws s) i 0%Z 0%Z) by lia.
  split.
  - intros [_ Hmax]. apply Z.le_antisymm.
    + specialize (Hmax (- vec_min (nb_draws s))%Z
                       (in_map Z.opp _ _ (vec_min_In _ Hne))).
      apply Z.leb_le in Hmax. lia.
    + apply vec_min_le, nth_In. lia.
  - intros E. split; [lia |]. intros y Hy. apply in_map_iff in Hy.
    destruct Hy as (x & <- & Hx). apply Z.leb_le.
    pose proof (vec_min_le _ _ Hx). lia.
Qed.

Lemma warm_start_least_drawn (s : @Player R) :
  any_zero (nb_draws s) = true ->
  warm_start s = Ok (map (set_my_arm s) (least_drawn s)) /\
  least_drawn s <> [].
Proof.
  intros Hz.
  assert (Hne : map Z.opp (nb_draws s) <> []).
  { apply any_zero_true in Hz. destruct Hz as (j & Hj & _).
    destruct (nb_draws s); simpl in *; [lia | discriminate]. }
  destruct (randmax_total Z Z.leb Zleb_total Zleb_trans _ Hne) as [E Hl].
  unfold warm_start. rewrite E, argmax_opp_least_drawn in *.
  split; [reflexivity | exact Hl].
Qed.

End WarmStart.

(** ** The decision rules on concrete players *)

(** Arm 1 has left the top arms [0; 2]; arm 2 is the one arm that was no
    better than arm 1 and is now among the best. *)
Example left_top_candidates :
  top_arms (three_arms_left_top false) [5; 1; 3]%Z = [0; 2] /\
  new_arms_to_choose (three_arms_left_top false) [5; 1; 3]%Z [0; 2] = Ok [2].
Proof. split; reflexivity. Qed.

(** RandTopMOld takes the candidate when it did not collide and any of the
    top arms when it did; RandTopM and MCTopM take the candidate either
    way. *)
Example left_top_RandTopOld :
  dmap my_arm
       (PlayerRandTopOld_choose_arm_to_play cum_policy (three_arms_left_top false))
  = Ok [Some 2] /\
  dmap my_arm
       (PlayerRandTopOld_choose_arm_to_play cum_policy (three_arms_left_top true))
  = Ok [Some 0; Some 2].
Proof. split; reflexivity. Qed.

Example left_top_RandTop_MCTop :
  dmap my_arm
       (PlayerRandTop_choose_arm_to_play cum_policy (three_arms_left_top true))
  = Ok [Some 2] /\
  dmap (fun s => (my_arm s, is_on_chair s))
       (PlayerMCTop_choose_arm_to_play cum_policy (three_arms_left_top true))
  = Ok [(Some 2, false)].
Proof. split; reflexivity. Qed.

(** Selfish after warm-start: the old indices are all zero, so both arms
    maximise them, and the indices are recomputed after the draw. *)
Example Selfish_after_warm_start :
  dmap (fun s => (my_arm s, ucbs s))
       (PlayerSelfish_choose_arm_to_play cum_policy two_arms_warm)
  = Ok [(Some 0, [1; 3]%Z); (Some 1, [1; 3]%Z)].
Proof. reflexivity. Qed.

(** An outcome recorded before any selection, then a call: with [my_arm]
    still [None] the row numbers of the two-dimensional mask are drawn,
    and arm 0 is selected. *)
Example choose_with_undefined_arm :
  Player_receive_reward (clear_state 2 1) 4%Z false
  = Ok (mkPlayer 2 1 [1; 1]%Z [4; 4]%Z 1%Z [0%Z] [0; 0]%Z None false false) /\
  dmap my_arm
       (PlayerRandTop_choose_arm_to_play cum_policy
          (mkPlayer 2 1 [1; 1]%Z [4; 4]%Z 1%Z [0%Z] [0; 0]%Z None false false))
  = Ok [Some 0; Some 0].
Proof. split; reflexivity. Qed.

(** * The stated properties *)

(** ** Warm-start *)

(** C5.  In each of the four variants, a call made while some arm has zero
    draws selects uniformly among the least-drawn arms, which are exactly
    the arms whose draw count equals the minimum of [nb_draws]; only
    [my_arm] changes, and the result does not depend on the index policy.
    This holds for every such state, hence on every round of warm-start. *)
Theorem warm_start_selects_least_drawn {R} `{ArgSort R}
  (v : variant) (policy : Policy) (s : Player) :
  v <> PlayerBase -> any_zero (nb_draws s) = true ->
  draws_uniformly (least_drawn s) (set_my_arm s)
                  (choose_arm_to_play v policy s) /\
  (forall a, In a (least_drawn s) <->
             a < length (nb_draws s) /\
             nth a (nb_draws s) 0%Z = vec_min (nb_draws s)) /\
  (forall policy', choose_arm_to_play v policy' s
                   = choose_arm_to_play v policy s).
Proof.
  intros Hv Hz.
  destruct (warm_start_least_drawn s Hz) as [E Hne].
  assert (Hw : forall p, choose_arm_to_play v p s = warm_start s).
  { intros p. destruct v; try congruence; simpl;
      [ unfold PlayerRandTopOld_choose_arm_to_play
      | unfold PlayerRandTop_choose_arm_to_play
      | unfold PlayerMCTop_choose_arm_to_play
      | unfold PlayerSelfish_choose_arm_to_play ]; rewrite Hz; reflexivity. }
  split; [| split].
  - rewrite Hw. unfold warm_start.
    pose proof (draws_uniformly_intro (least_drawn s) (set_my_arm s)) as D.
    unfold warm_start in E. unfold draws_uniformly in *.
    rewrite E. rewrite (choice_ok _ Hne) in D. simpl in D.
    apply D; [exact Hne | apply NoDup_filter, seq_NoDup | reflexivity].
  - intros a. unfold least_drawn. rewrite filter_In, in_seq, Z.eqb_eq.
    intuition lia.
  - intros p. rewrite !Hw. reflexivity.
Qed.

Lemma warm_start_selects_least_drawn_witness :
  PlayerSelfish <> PlayerBase /\
  any_zero (nb_draws (clear_state (R := Z) 3 2)) = true /\
  draws_uniformly [0; 1; 2] (set_my_arm (clear_state 3 2))
                  (choose_arm_to_play PlayerSelfish cum_policy (clear_state 3 2)).
Proof.
  split; [discriminate |]. split; [reflexivity |].
  apply (warm_start_selects_least_drawn PlayerSelfish cum_policy (clear_state 3 2));
    [discriminate | reflexivity].
Defined.

(** ** Bookkeeping of outcomes *)

(** C6.  [PlayerSelfish.receive_reward] with a collision leaves
    [cum_rewards[my_arm]] as it was (it adds 0), without one it adds the
    reward; either way [has_collided] is false afterwards,
    [nb_draws[my_arm]] has grown by 1 and [t] by 1, and no other entry of
    the two vectors has changed. *)
Theorem Selfish_receive_reward_no_sensing {R} `{ArgSort R}
  (s : Player) (a : nat) (reward : R) (collision : bool) :
  my_arm s = Some a ->
  a < length (cum_rewards s) -> a < length (nb_draws s) ->
  exists s',
    PlayerSelfish_receive_reward s reward collision = Ok s' /\
    nth a (cum_rewards s') zero
    = (if collision then nth a (cum_rewards s) zero
       else add (nth a (cum_rewards s) zero) reward) /\
    has_collided s' = false /\
    nth a (nb_draws s') 0%Z = (nth a (nb_draws s) 0 + 1)%Z /\
    t s' = (t s + 1)%Z /\
    forall j, j <> a ->
              nth j (cum_rewards s') zero = nth j (cum_rewards s) zero /\
              nth j (nb_draws s') 0%Z = nth j (nb_draws s) 0%Z.
Proof.
  intros Ha Hc Hd. unfold PlayerSelfish_receive_reward.
  rewrite (Player_receive_reward_arm s a _ false Ha Hc Hd).
  eexists. split; [reflexivity |]. unfold recorded. simpl.
  rewrite !update_nth by assumption. rewrite Nat.eqb_refl.
  repeat split.
  - destruct collision; [apply add_zero_r | reflexivity].
  - rewrite update_nth by assumption.
    rewrite (proj2 (Nat.eqb_neq j a)) by assumption. reflexivity.
  - rewrite update_nth by assumption.
    rewrite (proj2 (Nat.eqb_neq j a)) by assumption. reflexivity.
Qed.

Lemma Selfish_receive_reward_no_sensing_witness :
  exists s',
    PlayerSelfish_receive_reward two_arms_warm 5%Z true = Ok s' /\
    nth 1 (cum_rewards s') 0%Z = 3%Z /\
    has_collided s' = false /\
    nth 1 (nb_draws s') 0%Z = 2%Z /\ t s' = 3%Z.
Proof.
  destruct (Selfish_receive_reward_no_sensing two_arms_warm 1 5%Z true)
    as (s' & E & Hc & Hh & Hd & Ht & _);
    [reflexivity | simpl; lia | simpl; lia |].
  exists s'. repeat split; assumption.
Defined.

(** C10.  [Player.receive_reward] updates a single arm only once an arm
    has been selected.  Called while [my_arm] is still [None], as [clear]
    leaves it, it adds the reward to every entry of [cum_rewards] and 1 to
    every entry of [nb_draws]; called with an arm, it changes the entries
    of that arm and no other. *)
Theorem receive_reward_needs_selection {R} `{ArgSort R}
  (s : Player) (reward : R) (collision : bool) :
  my_arm (clear s) = None /\
  (my_arm s = None ->
   exists s',
     Player_receive_reward s reward collision = Ok s' /\
     cum_rewards s' = map (fun x => add x reward) (cum_rewards s) /\
     nb_draws s' = map (fun n => (n + 1)%Z) (nb_draws s) /\
     has_collided s' = collision /\ t s' = (t s + 1)%Z /\
     my_arm s' = None) /\
  (forall a, my_arm s = Some a ->
             a < length (cum_rewards s) -> a < length (nb_draws s) ->
   exists s',
     Player_receive_reward s reward collision = Ok s' /\
     nth a (cum_rewards s') zero = add (nth a (cum_rewards s) zero) reward /\
     nth a (nb_draws s') 0%Z = (nth a (nb_draws s) 0 + 1)%Z /\
     forall j, j <> a ->
               nth j (cum_rewards s') zero = nth j (cum_rewards s) zero /\
               nth j (nb_draws s') 0%Z = nth j (nb_draws s) 0%Z).
Proof.
  split; [reflexivity |]. split.
  - intros Hn. unfold Player_receive_reward. rewrite Hn. simpl.
    eexists. split; [reflexivity |]. simpl. repeat split; assumption.
  - intros a Ha Hc Hd.
    rewrite (Player_receive_reward_arm s a reward collision Ha Hc Hd).
    eexists. split; [reflexivity |]. unfold recorded. simpl.
    rewrite !update_nth by assumption. rewrite Nat.eqb_refl.
    repeat split;
      rewrite update_nth by assumption;
      rewrite (proj2 (Nat.eqb_neq j a)) by assumption; reflexivity.
Qed.

Lemma receive_reward_needs_selection_witness :
  my_arm (clear_state (R := Z) 3 2) = None /\
  exists s',
    Player_receive_reward (clear_state 3 2) 5%Z true = Ok s' /\
    cum_rewards s' = [5; 5; 5]%Z /\ nb_draws s' = [1; 1; 1]%Z.
Proof.
  split; [reflexivity |].
  destruct (receive_reward_needs_selection (clear_state 3 2) 5%Z true)
    as (_ & Hnone & _).
  destruct (Hnone eq_refl) as (s' & E & Hc & Hd & _).
  exists s'. repeat split; assumption.
Defined.

(** ** The factory *)

(** C7, as the code has it.  [strategy] rejects a class outside the
    [Player] hierarchy with an assertion failure, and accepts every class
    of the hierarchy, the base class [Player] included: it then returns
    [nb_players] instances of that class, each with its own cleared state
    over the given numbers of arms and players and with the given
    policy. *)
Theorem strategy_builds_players {R} `{ArgSort R}
  (c : pyclass) (K M : nat) (policy : Policy) :
  (issubclass_Player c = false ->
   strategy c K M policy = Raise AssertionError) /\
  (forall v, c = PlayerClass v ->
   exists l,
     strategy c K M policy = Ok l /\ length l = M /\
     forall i, In i l ->
               inst_class i = v /\ inst_policy i = policy /\
               inst_state i = clear_state K M /\
               nb_arms (inst_state i) = K /\
               nb_players (inst_state i) = M).
Proof.
  split.
  - destruct c; [discriminate | reflexivity].
  - intros v ->. simpl. eexists. split; [reflexivity |].
    split; [rewrite length_map, length_seq; reflexivity |].
    intros i Hi. apply in_map_iff in Hi. destruct Hi as (_ & <- & _).
    repeat split.
Qed.

Lemma strategy_builds_players_witness :
  strategy ForeignClass 3 2 cum_policy = Raise AssertionError /\
  exists l, strategy (PlayerClass PlayerMCTop) 3 2 cum_policy = Ok l /\ length l = 2.
Proof.
  destruct (strategy_builds_players ForeignClass 3 2 cum_policy) as [Hf _].
  destruct (strategy_builds_players (PlayerClass PlayerMCTop) 3 2 cum_policy)
    as [_ Hp].
  split; [apply Hf; reflexivity |].
  destruct (Hp PlayerMCTop eq_refl) as (l & E & Hl & _).
  exists l. split; assumption.
Defined.

(** C7 as stated fails: the base class [Player] is not one of the four
    variants, and the factory does not reject it. *)
Lemma strategy_accepts_base_class :
  is_defined_variant (PlayerClass PlayerBase) = false /\
  strategy (PlayerClass PlayerBase) 2 1 cum_policy
  = Ok [mkInstance PlayerBase cum_policy (clear_state 2 1)].
Proof. split; reflexivity. Qed.

(** ** The filtered candidate set *)

(** C4.  With the current arm [a] defined, the old index vector [ucbs s],
    a new index vector of the same length and the top arms computed from
    the new one, the candidate set the switching branches compute is the
    intersection of the arms whose old index is at most that of [a] with
    the arms whose new index is at least the minimum of the new index over
    the top arms. *)
Theorem new_arms_to_choose_is_intersection {R} `{ArgSort R}
  (s : Player) (ucbs_new : list R) (a : nat) :
  my_arm s = Some a -> a < length (ucbs s) ->
  length ucbs_new = length (ucbs s) -> 1 <= nb_players s ->
  exists cands,
    new_arms_to_choose s ucbs_new (top_arms s ucbs_new) = Ok cands /\
    (exists m, is_min_over ucbs_new (top_arms s ucbs_new) m) /\
    forall m, is_min_over ucbs_new (top_arms s ucbs_new) m ->
              cands = arms_inter (previously_no_better (ucbs s) a)
                                 (now_at_least ucbs_new m).
Proof.
  intros Ha Hlt Hlen HM.
  assert (Hne : top_arms s ucbs_new <> [])
    by (apply top_arms_nonempty; lia).
  destruct (getlast_nonempty _ Hne) as [b Hb].
  destruct (top_arms_last_min s ucbs_new b Hb) as [Hin Hmin].
  exists (candidates (ucbs s) ucbs_new a b).
  split; [apply new_arms_to_choose_eq; assumption |]. split.
  - exists (nth b ucbs_new zero). split; [eauto | exact Hmin].
  - intros m [(b' & Hb' & ->) Hm].
    apply candidates_inter; [exact Hlen | apply Hm, Hin | apply Hmin, Hb'].
Qed.

Lemma new_arms_to_choose_is_intersection_witness :
  new_arms_to_choose two_arms_warm [1; 3]%Z (top_arms two_arms_warm [1; 3]%Z)
  = Ok (arms_inter (previously_no_better [0; 0]%Z 1) (now_at_least [1; 3]%Z 3%Z)).
Proof.
  destruct (new_arms_to_choose_is_intersection two_arms_warm [1; 3]%Z 1)
    as (cands & E & _ & Hc);
    [reflexivity | simpl; lia | reflexivity | simpl; lia |].
  rewrite E. f_equal. apply Hc. split.
  - exists 1. split; [left; reflexivity | reflexivity].
  - intros x [<- | []]. reflexivity.
Defined.

(** ** Decisions after warm-start *)

Lemma two_arms_warm_reachable (v : variant) :
  v <> PlayerBase -> reachable v cum_policy 2 1 two_arms_warm.
Proof.
  intros Hv.
  pose (s0 := clear_state (R := Z) 2 1).
  pose (s1 := set_my_arm s0 0).
  pose (s2 := recorded s1 0 1%Z false).
  pose (s3 := set_my_arm s2 1).
  assert (R0 : reachable v cum_policy 2 1 s0) by apply reach_init.
  assert (R1 : reachable v cum_policy 2 1 s1).
  { apply (reach_choose v cum_policy 2 1 s0 [s1; set_my_arm s0 1] s1 R0);
      [destruct v; try congruence; reflexivity | left; reflexivity]. }
  assert (R2 : reachable v cum_policy 2 1 s2).
  { apply (reach_receive v cum_policy 2 1 s1 1%Z false s2 R1);
      [discriminate | destruct v; reflexivity]. }
  assert (R3 : reachable v cum_policy 2 1 s3).
  { apply (reach_choose v cum_policy 2 1 s2 [s3] s3 R2);
      [destruct v; try congruence; reflexivity | left; reflexivity]. }
  apply (reach_receive v cum_policy 2 1 s3 3%Z false two_arms_warm R3);
    [discriminate | destruct v; reflexivity].
Qed.

Lemma two_arms_overtaken_reachable (v : variant) :
  v <> PlayerBase -> v <> PlayerSelfish ->
  reachable v cum_policy 2 1
            (two_arms_overtaken (match v with PlayerMCTop => true | _ => false end)).
Proof.
  intros Hb Hs.
  pose proof (two_arms_warm_reachable v Hb) as R0.
  pose (chair := match v with PlayerMCTop => true | _ => false end).
  pose (s1 := decided two_arms_warm (Some 1) chair [1; 3]%Z).
  assert (R1 : reachable v cum_policy 2 1 s1).
  { apply (reach_choose v cum_policy 2 1 two_arms_warm [s1] s1 R0);
      [destruct v; try congruence; reflexivity | left; reflexivity]. }
  apply (reach_receive v cum_policy 2 1 s1 (-5)%Z false _ R1);
    [discriminate | destruct v; try congruence; reflexivity].
Qed.

Lemma cum_policy_length (s : @Player Z) : length (cum_policy s) = nb_arms s.
Proof. unfold cum_policy. rewrite length_map, length_seq. reflexivity. Qed.

Section Decisions.

Context {R : Type} `{ArgSort R}.

Variable policy : @Policy R.
Variables K M : nat.
Hypothesis K_pos : 1 <= K.
Hypothesis M_pos : 1 <= M.
Hypothesis policy_length : forall s, length (policy s) = nb_arms s.

(** What a run of a top-M variant has established when a call gets past
    the warm-start test. *)
Lemma reachable_after_warm_start (v : variant) (s : Player) :
  v <> PlayerSelfish -> reachable v policy K M s ->
  any_zero (nb_draws s) = false ->
  exists a cands,
    my_arm s = Some a /\
    top_arms s (policy s) <> [] /\
    new_arms_to_choose s (policy s) (top_arms s (policy s)) = Ok cands /\
    NoDup cands /\
    (~ In a (top_arms s (policy s)) -> cands <> []).
Proof.
  intros Hv Hr Hz.
  pose proof (reachable_Inv policy K M K_pos M_pos policy_length v s Hr) as HI.
  destruct (after_warm_start policy K M K_pos M_pos policy_length v s HI Hv Hz)
    as (a & b & Ha & _ & _ & _ & Hne & Ec & Hc).
  exists a, (candidates (ucbs s) (policy s) a b).
  repeat split; try assumption. apply candidates_NoDup.
Qed.

End Decisions.

(** ** The sets a decision draws from, in the words of the specification *)

Section DrawSets.

Context {R : Type} `{ArgSort R}.

(** The top arms the code computes are a top-M set of the index vector. *)
Lemma top_arms_is_top_set (s : Player) (v : list R) :
  is_top_set v (nb_players s) (top_arms s v).
Proof.
  split; [apply top_arms_NoDup |].
  split; [apply top_arms_length |].
  split; [apply top_arms_bound |].
  intros x y Hx Hy Hout.
  assert (Hne : top_arms s v <> []) by (intros E; rewrite E in Hx; exact Hx).
  destruct (getlast_nonempty _ Hne) as [b Hb].
  eapply leb_trans.
  - apply (top_arms_outside s v b y Hb Hy Hout).
  - apply (top_arms_last_min s v b Hb), Hx.
Qed.

(** The candidate list the code computes is the intersection the
    specification describes, for every minimum of the new index over the
    top arms. *)
Lemma new_arms_to_choose_filtered (s : Player) (new : list R) (a : nat) :
  my_arm s = Some a -> a < length (ucbs s) ->
  length new = length (ucbs s) -> 1 <= nb_players s ->
  (exists m, is_min_over new (top_arms s new) m) /\
  forall m, is_min_over new (top_arms s new) m ->
            new_arms_to_choose s new (top_arms s new)
            = Ok (arms_inter (previously_no_better (ucbs s) a)
                             (now_at_least new m)).
Proof.
  intros Ha Hlt Hlen HM.
  assert (Hne : top_arms s new <> []) by (apply top_arms_nonempty; lia).
  destruct (getlast_nonempty _ Hne) as [b Hb].
  destruct (top_arms_last_min s new b Hb) as [Hin Hmin].
  split.
  - exists (nth b new zero). split; [eauto | exact Hmin].
  - intros m [(b' & Hb' & ->) Hm].
    rewrite (new_arms_to_choose_eq s new a b Ha Hlt Hlen Hb).
    f_equal.
    apply candidates_inter; [exact Hlen | apply Hm, Hin | apply Hmin, Hb'].
Qed.

(** In a run that follows the order of play, the filtered candidate set of
    a top-M variant is not empty when the current arm has left the top
    arms. *)
Lemma filtered_set_nonempty_in_runs (v : variant) (policy : Policy)
  (K M : nat) (s : Player) (a : nat) (m : R) :
  1 <= K -> 1 <= M -> (forall s, length (policy s) = nb_arms s) ->
  v <> PlayerSelfish -> reachable v policy K M s ->
  any_zero (nb_draws s) = false -> my_arm s = Some a ->
  ~ In a (top_arms s (policy s)) ->
  is_min_over (policy s) (top_arms s (policy s)) m ->
  arms_inter (previously_no_better (ucbs s) a) (now_at_least (policy s) m)
  <> [].
Proof.
  intros HK HM Hp Hv Hr Hz Ha Hout Hm.
  destruct (reachable_after_warm_start policy K M HK HM Hp v s Hv Hr Hz)
    as (a' & cands & Ha' & _ & Ec & _ & Hc).
  rewrite Ha in Ha'. injection Ha' as <-.
  pose proof (reachable_Inv policy K M HK HM Hp v s Hr)
    as (I1 & I2 & _ & _ & I5 & _ & _ & I8).
  rewrite Ha in I8.
  destruct (new_arms_to_choose_filtered s (policy s) a Ha) as [_ Hf];
    [lia | rewrite Hp; lia | lia |].
  rewrite (Hf m Hm) in Ec. injection Ec as <-. apply Hc, Hout.
Qed.

End DrawSets.

(** C1, as the code has it.  MCTopM, on a call made after warm-start is
    complete, with a current arm [a] that indexes [ucbs], [ucbs_new] the
    fresh index vector and [best] the top arms computed from it.  [best]
    is a top-M set of [ucbs_new], and with [m] a minimum of [ucbs_new]
    over it and [cands] the arms whose old index is at most that of [a]
    and whose new index is at least [m]:
    - [a] not in [best], [cands] not empty: the arm is drawn uniformly
      from [cands], and [is_on_chair] is set to false;
    - [a] not in [best], [cands] empty: the call raises [ValueError];
    - [a] in [best], collided, not on chair: the arm is drawn uniformly
      from [best], and [is_on_chair] stays false;
    - [a] in [best] otherwise: the arm is kept and [is_on_chair] is set to
      true;
    in each returning case [ucbs] becomes [ucbs_new] and nothing else
    changes. *)
Theorem MCTop_choose_after_warm_start {R} `{ArgSort R}
  (policy : Policy) (s : Player) (a : nat) :
  any_zero (nb_draws s) = false ->
  my_arm s = Some a -> a < length (ucbs s) ->
  length (policy s) = length (ucbs s) -> 1 <= nb_players s ->
  let ucbs_new := policy s in
  let best := top_arms s ucbs_new in
  is_top_set ucbs_new (nb_players s) best /\
  (exists m, is_min_over ucbs_new best m) /\
  (~ In a best ->
   forall m, is_min_over ucbs_new best m ->
   let cands := arms_inter (previously_no_better (ucbs s) a)
                           (now_at_least ucbs_new m) in
   (cands <> [] ->
    draws_uniformly cands (fun a' => decided s (Some a') false ucbs_new)
                    (PlayerMCTop_choose_arm_to_play policy s)) /\
   (cands = [] ->
    PlayerMCTop_choose_arm_to_play policy s = Raise ValueError)) /\
  (In a best -> has_collided s = true -> is_on_chair s = false ->
   draws_uniformly best (fun a' => decided s (Some a') false ucbs_new)
                   (PlayerMCTop_choose_arm_to_play policy s)) /\
  (In a best -> has_collided s = false \/ is_on_chair s = true ->
   PlayerMCTop_choose_arm_to_play policy s
   = Ok [decided s (Some a) true ucbs_new]).
Proof.
  intros Hz Ha Hlt Hlen HM ucbs_new best.
  destruct (new_arms_to_choose_filtered s ucbs_new a Ha Hlt Hlen HM)
    as [Hex Hf].
  fold best in Hex, Hf.
  split; [apply top_arms_is_top_set |]. split; [exact Hex |].
  unfold PlayerMCTop_choose_arm_to_play. rewrite Hz, Ha.
  fold ucbs_new. fold best.
  split; [| split].
  - intros Hout m Hm. cbv zeta.
    rewrite (proj2 (contains_not_In a best) Hout). cbn [negb].
    rewrite (Hf m Hm). cbn [bind].
    set (cands := arms_inter _ _). split.
    + intros Hne. apply draws_uniformly_intro;
        [exact Hne | apply NoDup_filter, NoDup_filter, seq_NoDup | reflexivity].
    + intros ->. reflexivity.
  - intros Hin Hcol Hchair. rewrite (proj2 (contains_In a best) Hin).
    rewrite Hcol, Hchair. simpl.
    apply draws_uniformly_intro;
      [ intros E; rewrite E in Hin; exact Hin
      | apply top_arms_NoDup | reflexivity ].
  - intros Hin Hkeep. rewrite (proj2 (contains_In a best) Hin). simpl.
    assert (E : has_collided s && negb (is_on_chair s) = false).
    { destruct Hkeep as [-> | ->]; [reflexivity | apply andb_false_r]. }
    rewrite E. unfold set_ucbs, set_is_on_chair, decided. simpl.
    rewrite Ha. reflexivity.
Qed.

Lemma MCTop_choose_after_warm_start_witness :
  is_top_set [5; 1; 3]%Z 2 [0; 2] /\
  draws_uniformly [2]
    (fun a' => decided (three_arms_left_top true) (Some a') false [5; 1; 3]%Z)
    (PlayerMCTop_choose_arm_to_play cum_policy (three_arms_left_top true)).
Proof.
  destruct (MCTop_choose_after_warm_start cum_policy
              (three_arms_left_top true) 1)
    as (Htop & _ & Hswitch & _);
    [reflexivity | reflexivity | simpl; lia | reflexivity | simpl; lia |].
  split; [exact Htop |].
  assert (Hout : ~ In 1 (top_arms (three_arms_left_top true)
                                  (cum_policy (three_arms_left_top true)))).
  { simpl. intros [E | [E | []]]; discriminate. }
  assert (Hm : is_min_over (cum_policy (three_arms_left_top true))
                           (top_arms (three_arms_left_top true)
                                     (cum_policy (three_arms_left_top true)))
                           3%Z).
  { split.
    - exists 2. split; [right; left; reflexivity | reflexivity].
    - intros x [<- | [<- | []]]; reflexivity. }
  destruct (Hswitch Hout 3%Z Hm) as [Hdraw _].
  apply Hdraw. discriminate.
Defined.

(** C1 as stated fails.  An outcome recorded before any selection, then a
    call, leave a MCTopM player with all draw counts positive on arm 0,
    outside the top arms; at the next call no arm passes both bounds of
    the filter, and the call raises: no arm is drawn and [ucbs] is not
    refreshed. *)
Lemma MCTop_raises_after_warm_start :
  Player_receive_reward (clear_state 2 1) 0%Z false = Ok two_arms_unselected /\
  PlayerMCTop_choose_arm_to_play fixed_policy two_arms_unselected
  = Ok [two_arms_misplaced] /\
  any_zero (nb_draws two_arms_misplaced) = false /\
  my_arm two_arms_misplaced = Some 0 /\
  top_arms two_arms_misplaced (fixed_policy two_arms_misplaced) = [1] /\
  PlayerMCTop_choose_arm_to_play fixed_policy two_arms_misplaced
  = Raise ValueError.
Proof. repeat split. Qed.

(** C2, as the code has it.  RandTopMOld, on a call made after warm-start
    is complete, with a current arm [a] that indexes [ucbs]; [best],
    [m] and [cands] as for C1:
    - [a] in [best]: the arm is kept whatever the collision flag, and the
      call has a single outcome (it draws nothing);
    - [a] not in [best], collided: the arm is drawn uniformly from [best],
      the top-M set itself;
    - [a] not in [best], not collided, [cands] not empty: the arm is drawn
      uniformly from [cands];
    - [a] not in [best], not collided, [cands] empty: the call raises
      [ValueError];
    in each returning case [ucbs] becomes [ucbs_new] and nothing else
    changes. *)
Theorem RandTopOld_choose_after_warm_start {R} `{ArgSort R}
  (policy : Policy) (s : Player) (a : nat) :
  any_zero (nb_draws s) = false ->
  my_arm s = Some a -> a < length (ucbs s) ->
  length (policy s) = length (ucbs s) -> 1 <= nb_players s ->
  let ucbs_new := policy s in
  let best := top_arms s ucbs_new in
  is_top_set ucbs_new (nb_players s) best /\
  (exists m, is_min_over ucbs_new best m) /\
  (In a best ->
   PlayerRandTopOld_choose_arm_to_play policy s
   = Ok [decided s (Some a) (is_on_chair s) ucbs_new]) /\
  (~ In a best -> has_collided s = true ->
   draws_uniformly best
                   (fun a' => decided s (Some a') (is_on_chair s) ucbs_new)
                   (PlayerRandTopOld_choose_arm_to_play policy s)) /\
  (~ In a best -> has_collided s = false ->
   forall m, is_min_over ucbs_new best m ->
   let cands := arms_inter (previously_no_better (ucbs s) a)
                           (now_at_least ucbs_new m) in
   (cands <> [] ->
    draws_uniformly cands
                    (fun a' => decided s (Some a') (is_on_chair s) ucbs_new)
                    (PlayerRandTopOld_choose_arm_to_play policy s)) /\
   (cands = [] ->
    PlayerRandTopOld_choose_arm_to_play policy s = Raise ValueError)).
Proof.
  intros Hz Ha Hlt Hlen HM ucbs_new best.
  destruct (new_arms_to_choose_filtered s ucbs_new a Ha Hlt Hlen HM)
    as [Hex Hf].
  fold best in Hex, Hf.
  assert (Hne : best <> []) by (apply top_arms_nonempty; unfold ucbs_new; lia).
  split; [apply top_arms_is_top_set |]. split; [exact Hex |].
  unfold PlayerRandTopOld_choose_arm_to_play. rewrite Hz, Ha.
  fold ucbs_new. fold best.
  split; [| split].
  - intros Hin. rewrite (proj2 (contains_In a best) Hin). simpl.
    unfold set_ucbs, decided. rewrite Ha. reflexivity.
  - intros Hout Hcol. rewrite (proj2 (contains_not_In a best) Hout), Hcol.
    simpl.
    apply draws_uniformly_intro;
      [exact Hne | apply top_arms_NoDup | reflexivity].
  - intros Hout Hcol m Hm. cbv zeta.
    rewrite (proj2 (contains_not_In a best) Hout), Hcol. cbn [negb].
    rewrite (Hf m Hm). cbn [bind].
    set (cands := arms_inter _ _). split.
    + intros Hc. apply draws_uniformly_intro;
        [exact Hc | apply NoDup_filter, NoDup_filter, seq_NoDup | reflexivity].
    + intros ->. reflexivity.
Qed.

Lemma RandTopOld_choose_after_warm_start_witness :
  is_top_set [5; 1; 3]%Z 2 [0; 2] /\
  draws_uniformly [0; 2]
    (fun a' => decided (three_arms_left_top true) (Some a') false [5; 1; 3]%Z)
    (PlayerRandTopOld_choose_arm_to_play cum_policy (three_arms_left_top true))
  /\
  draws_uniformly [2]
    (fun a' => decided (three_arms_left_top false) (Some a') false [5; 1; 3]%Z)
    (PlayerRandTopOld_choose_arm_to_play cum_policy (three_arms_left_top false)).
Proof.
  destruct (RandTopOld_choose_after_warm_start cum_policy
              (three_arms_left_top true) 1)
    as (Htop & _ & _ & Hbest & _);
    [reflexivity | reflexivity | simpl; lia | reflexivity | simpl; lia |].
  destruct (RandTopOld_choose_after_warm_start cum_policy
              (three_arms_left_top false) 1)
    as (_ & _ & _ & _ & Hcands);
    [reflexivity | reflexivity | simpl; lia | reflexivity | simpl; lia |].
  assert (Hout : forall c,
             ~ In 1 (top_arms (three_arms_left_top c)
                              (cum_policy (three_arms_left_top c)))).
  { intros c. simpl. intros [E | [E | []]]; discriminate. }
  split; [exact Htop |]. split.
  - apply Hbest; [apply Hout | reflexivity].
  - assert (Hm : is_min_over (cum_policy (three_arms_left_top false))
                             (top_arms (three_arms_left_top false)
                                       (cum_policy (three_arms_left_top false)))
                             3%Z).
    { split.
      - exists 2. split; [right; left; reflexivity | reflexivity].
      - intros x [<- | [<- | []]]; reflexivity. }
    destruct (Hcands (Hout false) eq_refl 3%Z Hm) as [Hdraw _].
    apply Hdraw. discriminate.
Defined.

(** C2 as stated fails, on the player of C1's counterexample run as
    RandTopMOld: not collided, on arm 0 outside the top arms, with no arm
    passing the filter, the call raises. *)
Lemma RandTopOld_raises_after_warm_start :
  Player_receive_reward (clear_state 2 1) 0%Z false = Ok two_arms_unselected /\
  PlayerRandTopOld_choose_arm_to_play fixed_policy two_arms_unselected
  = Ok [two_arms_misplaced] /\
  any_zero (nb_draws two_arms_misplaced) = false /\
  my_arm two_arms_misplaced = Some 0 /\
  has_collided two_arms_misplaced = false /\
  top_arms two_arms_misplaced (fixed_policy two_arms_misplaced) = [1] /\
  PlayerRandTopOld_choose_arm_to_play fixed_policy two_arms_misplaced
  = Raise ValueError.
Proof. repeat split. Qed.

(** C3, as the code has it.  RandTopM, on a call made after warm-start is
    complete, with a current arm [a] that indexes [ucbs]; [best], [m] and
    [cands] as for C1:
    - [a] not in [best], [cands] not empty: the arm is drawn uniformly
      from [cands], whatever the collision flag;
    - [a] not in [best], [cands] empty: the call raises [ValueError];
    - [a] in [best], collided: the arm is drawn uniformly from [best], the
      current arm being one of the possible outcomes;
    - [a] in [best], not collided: the arm is kept;
    in each returning case [ucbs] becomes [ucbs_new] and nothing else
    changes. *)
Theorem RandTop_choose_after_warm_start {R} `{ArgSort R}
  (policy : Policy) (s : Player) (a : nat) :
  any_zero (nb_draws s) = false ->
  my_arm s = Some a -> a < length (ucbs s) ->
  length (policy s) = length (ucbs s) -> 1 <= nb_players s ->
  let ucbs_new := policy s in
  let best := top_arms s ucbs_new in
  is_top_set ucbs_new (nb_players s) best /\
  (exists m, is_min_over ucbs_new best m) /\
  (~ In a best ->
   forall m, is_min_over ucbs_new best m ->
   let cands := arms_inter (previously_no_better (ucbs s) a)
                           (now_at_least ucbs_new m) in
   (cands <> [] ->
    draws_uniformly cands
                    (fun a' => decided s (Some a') (is_on_chair s) ucbs_new)
                    (PlayerRandTop_choose_arm_to_play policy s)) /\
   (cands = [] ->
    PlayerRandTop_choose_arm_to_play policy s = Raise ValueError)) /\
  (In a best -> has_collided s = true ->
   draws_uniformly best
                   (fun a' => decided s (Some a') (is_on_chair s) ucbs_new)
                   (PlayerRandTop_choose_arm_to_play policy s) /\
   In (decided s (Some a) (is_on_chair s) ucbs_new)
      (map (fun a' => decided s (Some a') (is_on_chair s) ucbs_new) best)) /\
  (In a best -> has_collided s = false ->
   PlayerRandTop_choose_arm_to_play policy s
   = Ok [decided s (Some a) (is_on_chair s) ucbs_new]).
Proof.
  intros Hz Ha Hlt Hlen HM ucbs_new best.
  destruct (new_arms_to_choose_filtered s ucbs_new a Ha Hlt Hlen HM)
    as [Hex Hf].
  fold best in Hex, Hf.
  assert (Hne : best <> []) by (apply top_arms_nonempty; unfold ucbs_new; lia).
  split; [apply top_arms_is_top_set |]. split; [exact Hex |].
  unfold PlayerRandTop_choose_arm_to_play. rewrite Hz, Ha.
  fold ucbs_new. fold best.
  split; [| split].
  - intros Hout m Hm. cbv zeta.
    rewrite (proj2 (contains_not_In a best) Hout). cbn [negb].
    rewrite (Hf m Hm). cbn [bind].
    set (cands := arms_inter _ _). split.
    + intros Hc. apply draws_uniformly_intro;
        [exact Hc | apply NoDup_filter, NoDup_filter, seq_NoDup | reflexivity].
    + intros ->. reflexivity.
  - intros Hin Hcol. rewrite (proj2 (contains_In a best) Hin), Hcol. simpl.
    split.
    + apply draws_uniformly_intro;
        [exact Hne | apply top_arms_NoDup | reflexivity].
    + apply in_map_iff. exists a. split; [reflexivity | exact Hin].
  - intros Hin Hcol. rewrite (proj2 (contains_In a best) Hin), Hcol. simpl.
    unfold set_ucbs, decided. rewrite Ha. reflexivity.
Qed.

Lemma RandTop_choose_after_warm_start_witness :
  is_top_set [5; 1; 3]%Z 2 [0; 2] /\
  draws_uniformly [2]
    (fun a' => decided (three_arms_left_top true) (Some a') false [5; 1; 3]%Z)
    (PlayerRandTop_choose_arm_to_play cum_policy (three_arms_left_top true)).
Proof.
  destruct (RandTop_choose_after_warm_start cum_policy
              (three_arms_left_top true) 1)
    as (Htop & _ & Hswitch & _);
    [reflexivity | reflexivity | simpl; lia | reflexivity | simpl; lia |].
  split; [exact Htop |].
  assert (Hout : ~ In 1 (top_arms (three_arms_left_top true)
                                  (cum_policy (three_arms_left_top true)))).
  { simpl. intros [E | [E | []]]; discriminate. }
  assert (Hm : is_min_over (cum_policy (three_arms_left_top true))
                           (top_arms (three_arms_left_top true)
                                     (cum_policy (three_arms_left_top true)))
                           3%Z).
  { split.
    - exists 2. split; [right; left; reflexivity | reflexivity].
    - intros x [<- | [<- | []]]; reflexivity. }
  destruct (Hswitch Hout 3%Z Hm) as [Hdraw _].
  apply Hdraw. discriminate.
Defined.

(** C3 as stated fails, on the player of C1's counterexample run as
    RandTopM: on arm 0 outside the top arms, with no arm passing the
    filter, the call raises. *)
Lemma RandTop_raises_after_warm_start :
  Player_receive_reward (clear_state 2 1) 0%Z false = Ok two_arms_unselected /\
  PlayerRandTop_choose_arm_to_play fixed_policy two_arms_unselected
  = Ok [two_arms_misplaced] /\
  any_zero (nb_draws two_arms_misplaced) = false /\
  my_arm two_arms_misplaced = Some 0 /\
  top_arms two_arms_misplaced (fixed_policy two_arms_misplaced) = [1] /\
  PlayerRandTop_choose_arm_to_play fixed_policy two_arms_misplaced
  = Raise ValueError.
Proof. repeat split. Qed.

(** ** An empty candidate set *)

(** C8, as the code has it.  In the branches that select from the
    filtered candidate set (RandTopMOld without collision, RandTopM and
    MCTopM, the current arm having left the top arms) the random choice is
    made on that set unconditionally: on an empty set the call raises
    [ValueError], no other set being tried, and on a non-empty set it
    returns one outcome per candidate. *)
Theorem candidate_choice_is_unconditional {R} `{ArgSort R}
  (policy : Policy) (s : Player) (a : nat) (cands : list nat) :
  any_zero (nb_draws s) = false -> my_arm s = Some a ->
  ~ In a (top_arms s (policy s)) ->
  new_arms_to_choose s (policy s) (top_arms s (policy s)) = Ok cands ->
  (cands = [] ->
   (has_collided s = false ->
    PlayerRandTopOld_choose_arm_to_play policy s = Raise ValueError) /\
   PlayerRandTop_choose_arm_to_play policy s = Raise ValueError /\
   PlayerMCTop_choose_arm_to_play policy s = Raise ValueError) /\
  (cands <> [] ->
   (has_collided s = false ->
    PlayerRandTopOld_choose_arm_to_play policy s
    = Ok (map (fun a' => decided s (Some a') (is_on_chair s) (policy s)) cands))
   /\
   PlayerRandTop_choose_arm_to_play policy s
   = Ok (map (fun a' => decided s (Some a') (is_on_chair s) (policy s)) cands)
   /\
   PlayerMCTop_choose_arm_to_play policy s
   = Ok (map (fun a' => decided s (Some a') false (policy s)) cands)).
Proof.
  intros Hz Ha Hout Ec.
  apply contains_not_In in Hout.
  unfold PlayerRandTopOld_choose_arm_to_play, PlayerRandTop_choose_arm_to_play,
    PlayerMCTop_choose_arm_to_play.
  rewrite Hz, Ha, Hout, Ec. simpl.
  split.
  - intros ->. simpl. repeat split. intros ->. reflexivity.
  - intros Hne. rewrite (choice_ok _ Hne). simpl.
    repeat split. intros ->. reflexivity.
Qed.

Lemma candidate_choice_is_unconditional_witness :
  PlayerMCTop_choose_arm_to_play cum_policy two_arms_stranded = Raise ValueError.
Proof.
  assert (Hout : ~ In 0 (top_arms two_arms_stranded
                                  (cum_policy two_arms_stranded))).
  { simpl. intros [E | []]. discriminate. }
  destruct (candidate_choice_is_unconditional
              cum_policy two_arms_stranded 0 [] eq_refl eq_refl Hout eq_refl)
    as [Hempty _].
  apply Hempty. reflexivity.
Defined.

(** C8 as stated fails: with arm 0 current, ranked below arm 1 before and
    after, the filtered candidate set is empty and each of the three
    variants raises instead of falling back on the top arms. *)
Lemma empty_candidates_raise :
  any_zero (nb_draws two_arms_stranded) = false /\
  top_arms two_arms_stranded (cum_policy two_arms_stranded) = [1] /\
  new_arms_to_choose two_arms_stranded (cum_policy two_arms_stranded)
                     (top_arms two_arms_stranded (cum_policy two_arms_stranded))
  = Ok [] /\
  PlayerRandTopOld_choose_arm_to_play cum_policy two_arms_stranded
  = Raise ValueError /\
  PlayerRandTop_choose_arm_to_play cum_policy two_arms_stranded = Raise ValueError /\
  PlayerMCTop_choose_arm_to_play cum_policy two_arms_stranded = Raise ValueError.
Proof. repeat split. Qed.

(** ** Validity of the selected arm *)

(** C9.  In each of the four variants, with at least one arm and one
    player and a policy returning one index per arm, every call of
    [choose_arm_to_play] in a run returns, and in each of its outcomes
    [my_arm] is an arm index below [K = nb_arms].  The first call, on the
    cleared state where [my_arm] is [None], is one of them. *)
Theorem my_arm_valid_after_choose {R} `{ArgSort R}
  (v : variant) (policy : Policy) (K M : nat) (s : Player) :
  1 <= K -> 1 <= M -> (forall s, length (policy s) = nb_arms s) ->
  v <> PlayerBase ->
  reachable v policy K M s ->
  exists d,
    choose_arm_to_play v policy s = Ok d /\ d <> [] /\
    forall s', In s' d ->
               exists a, my_arm s' = Some a /\ a < K /\ nb_arms s' = K.
Proof.
  intros HK HM Hp Hv Hr.
  pose proof (reachable_Inv policy K M HK HM Hp v s Hr) as HI.
  destruct (choose_step policy K M HK HM Hp v s HI Hv) as (d & E & Hne & Hd).
  exists d. split; [exact E |]. split; [exact Hne |].
  intros s' Hs'. destruct (Hd s' Hs') as [HI' (a & Ha & HaK)].
  exists a. repeat split; try assumption. apply HI'.
Qed.

Lemma my_arm_valid_after_choose_witness :
  my_arm (clear_state (R := Z) 2 1) = None /\
  exists d,
    choose_arm_to_play PlayerSelfish cum_policy (clear_state 2 1) = Ok d /\
    d <> [] /\
    forall s', In s' d ->
               exists a, my_arm s' = Some a /\ a < 2 /\ nb_arms s' = 2.
Proof.
  split; [reflexivity |].
  apply (my_arm_valid_after_choose PlayerSelfish cum_policy 2 1 (clear_state 2 1));
    [lia | lia | apply cum_policy_length | discriminate | apply reach_init].
Defined.

(** * Further properties of the module *)

(** ** The shape of the results *)

Section Shapes.

Context {R : Type} `{ArgSort R}.

Lemma dmap_choice_shape {A} (f : A -> @Player R) (l : list A) (d : dist Player) :
  dmap f (choice l) = Ok d -> l <> [] /\ d = map f l.
Proof.
  destruct l as [|x l]; simpl; [discriminate |].
  intros [= <-]. split; [discriminate | reflexivity].
Qed.

(** A call that returns has drawn from a non-empty list of arms; each
    outcome is the state with that arm, some commitment flag and some index
    vector.  Keeping the arm is the draw from the one-arm list. *)
Lemma choose_shape (v : variant) (policy : Policy) (s : Player) (d : dist Player) :
  choose_arm_to_play v policy s = Ok d ->
  exists (l : list nat) (u : nat -> list R) (c : bool),
    l <> [] /\
    d = map (fun a => decided s (Some a) c (u a)) l /\
    (v <> PlayerMCTop -> c = is_on_chair s).
Proof.
  intros E.
  assert (W : warm_start s = Ok d ->
              exists (l : list nat) (u : nat -> list R) (c : bool),
                l <> [] /\ d = map (fun a => decided s (Some a) c (u a)) l /\
                (v <> PlayerMCTop -> c = is_on_chair s)).
  { intros Ew. apply dmap_choice_shape in Ew. destruct Ew as [Hne ->].
    eexists _, (fun _ => ucbs s), (is_on_chair s).
    split; [exact Hne |]. split; [reflexivity | reflexivity]. }
  destruct v; simpl in E; try discriminate.
  - unfold PlayerRandTopOld_choose_arm_to_play in E.
    destruct (any_zero (nb_draws s)); [exact (W E) |].
    destruct (contains (my_arm s) (top_arms s (policy s))) eqn:Hc; simpl in E.
    + destruct (my_arm s) as [a|] eqn:Ha; [| discriminate].
      injection E as <-.
      exists [a], (fun _ => policy s), (is_on_chair s).
      split; [discriminate |]. split; [| reflexivity].
      simpl. unfold set_ucbs, decided. rewrite Ha. reflexivity.
    + destruct (has_collided s).
      * apply dmap_choice_shape in E. destruct E as [Hne ->].
        eexists _, (fun _ => policy s), (is_on_chair s).
        split; [exact Hne |]. split; reflexivity.
      * destruct (new_arms_to_choose s (policy s) (top_arms s (policy s)))
          as [cands|e]; simpl in E; [| discriminate].
        apply dmap_choice_shape in E. destruct E as [Hne ->].
        eexists _, (fun _ => policy s), (is_on_chair s).
        split; [exact Hne |]. split; reflexivity.
  - unfold PlayerRandTop_choose_arm_to_play in E.
    destruct (any_zero (nb_draws s)); [exact (W E) |].
    destruct (contains (my_arm s) (top_arms s (policy s))) eqn:Hc; simpl in E.
    + destruct (has_collided s).
      * apply dmap_choice_shape in E. destruct E as [Hne ->].
        eexists _, (fun _ => policy s), (is_on_chair s).
        split; [exact Hne |]. split; reflexivity.
      * destruct (my_arm s) as [a|] eqn:Ha; [| discriminate].
        injection E as <-.
        exists [a], (fun _ => policy s), (is_on_chair s).
        split; [discriminate |]. split; [| reflexivity].
        simpl. unfold set_ucbs, decided. rewrite Ha. reflexivity.
    + destruct (new_arms_to_choose s (policy s) (top_arms s (policy s)))
        as [cands|e]; simpl in E; [| discriminate].
      apply dmap_choice_shape in E. destruct E as [Hne ->].
      eexists _, (fun _ => policy s), (is_on_chair s).
      split; [exact Hne |]. split; reflexivity.
  - unfold PlayerMCTop_choose_arm_to_play in E.
    destruct (any_zero (nb_draws s)); [exact (W E) |].
    destruct (contains (my_arm s) (top_arms s (policy s))) eqn:Hc; simpl in E.
    + destruct (has_collided s && negb (is_on_chair s)).
      * apply dmap_choice_shape in E. destruct E as [Hne ->].
        eexists _, (fun _ => policy s), false.
        split; [exact Hne |]. split; [reflexivity | congruence].
      * destruct (my_arm s) as [a|] eqn:Ha; [| discriminate].
        injection E as <-.
        exists [a], (fun _ => policy s), true.
        split; [discriminate |]. split; [| congruence].
        simpl. unfold set_ucbs, set_is_on_chair, decided. simpl.
        rewrite Ha. reflexivity.
    + destruct (new_arms_to_choose s (policy s) (top_arms s (policy s)))
        as [cands|e]; simpl in E; [| discriminate].
      apply dmap_choice_shape in E. destruct E as [Hne ->].
      eexists _, (fun _ => policy s), false.
      split; [exact Hne |]. split; [reflexivity | congruence].
  - unfold PlayerSelfish_choose_arm_to_play in E.
    destruct (any_zero (nb_draws s)); [exact (W E) |].
    apply dmap_choice_shape in E. destruct E as [Hne ->].
    eexists _, (fun a => policy (set_my_arm s a)), (is_on_chair s).
    split; [exact Hne |]. split; reflexivity.
Qed.

(** What a recorded outcome looks like. *)
Lemma Player_receive_reward_inv (s s' : Player) (reward : R) (collision : bool) :
  Player_receive_reward s reward collision = Ok s' ->
  exists cum nd,
    iadd_at (fun x => add x reward) (cum_rewards s) (my_arm s) = Ok cum /\
    iadd_at (fun n => (n + 1)%Z) (nb_draws s) (my_arm s) = Ok nd /\
    s' = mkPlayer (nb_arms s) (nb_players s) nd cum (t s + 1)%Z
                  (best_arms s) (ucbs s) (my_arm s) collision (is_on_chair s).
Proof.
  unfold Player_receive_reward.
  destruct (iadd_at _ (cum_rewards s) (my_arm s)) as [cum|e]; simpl;
    [| discriminate].
  destruct (iadd_at _ (nb_draws s) (my_arm s)) as [nd|e]; simpl;
    [| discriminate].
  intros [= <-]. eauto.
Qed.

Lemma receive_reward_inv (v : variant) (s s' : Player) (reward : R)
  (collision : bool) :
  receive_reward v s reward collision = Ok s' ->
  exists cum nd c,
    iadd_at (fun n => (n + 1)%Z) (nb_draws s) (my_arm s) = Ok nd /\
    (v = PlayerSelfish -> c = false) /\
    s' = mkPlayer (nb_arms s) (nb_players s) nd cum (t s + 1)%Z
                  (best_arms s) (ucbs s) (my_arm s) c (is_on_chair s).
Proof.
  intros E.
  assert (G : forall r c, Player_receive_reward s r c = Ok s' ->
                          exists cum nd,
                            iadd_at (fun n => (n + 1)%Z) (nb_draws s) (my_arm s)
                            = Ok nd /\
                            s' = mkPlayer (nb_arms s) (nb_players s) nd cum
                                          (t s + 1)%Z (best_arms s) (ucbs s)
                                          (my_arm s) c (is_on_chair s)).
  { intros r c Er. apply Player_receive_reward_inv in Er.
    destruct Er as (cum & nd & _ & End & ->). eauto. }
  destruct v; simpl in E; unfold PlayerSelfish_receive_reward in E;
    apply G in E; destruct E as (cum & nd & End & ->);
    eexists cum, nd, _; (split; [exact End |]);
    (split; [| reflexivity]); (reflexivity || congruence).
Qed.

End Shapes.

(** ** What a call and a recorded outcome leave alone *)

(** X1.  When a call of [choose_arm_to_play] returns, in any state of any
    variant, it has at least one outcome, the arm is defined in each, and
    only [my_arm], [ucbs] and [is_on_chair] can differ from the state
    before; [is_on_chair] differs in MCTopM only. *)
Theorem choose_arm_to_play_frame {R} `{ArgSort R}
  (v : variant) (policy : Policy) (s : Player) (d : dist Player) :
  choose_arm_to_play v policy s = Ok d ->
  d <> [] /\
  forall s', In s' d ->
             (exists a, my_arm s' = Some a) /\
             untouched_by_choice s s' /\
             (v <> PlayerMCTop -> is_on_chair s' = is_on_chair s).
Proof.
  intros E. destruct (choose_shape v policy s d E) as (l & u & c & Hne & -> & Hc).
  split; [apply map_nonempty, Hne |].
  intros s' Hs'. apply in_map_iff in Hs'. destruct Hs' as (a & <- & _).
  split; [exists a; reflexivity |].
  split; [repeat split | exact Hc].
Qed.

Lemma choose_arm_to_play_frame_witness :
  exists d,
    choose_arm_to_play PlayerMCTop cum_policy (two_arms_overtaken true) = Ok d /\
    d <> [] /\
    forall s', In s' d -> nb_draws s' = [1; 2]%Z /\ t s' = 3%Z.
Proof.
  exists [decided (two_arms_overtaken true) (Some 0) false [1; -2]%Z].
  assert (E : choose_arm_to_play PlayerMCTop cum_policy
                (two_arms_overtaken true)
              = Ok [decided (two_arms_overtaken true) (Some 0) false
                            [1; -2]%Z]) by reflexivity.
  split; [exact E |].
  destruct (choose_arm_to_play_frame PlayerMCTop cum_policy
              (two_arms_overtaken true) _ E) as [Hne Hall].
  split; [exact Hne |].
  intros s' Hs'. destruct (Hall s' Hs') as (_ & U & _).
  destruct U as (_ & _ & Hd & _ & Ht & _). split; assumption.
Defined.

(** X2.  A recorded outcome, in any variant, leaves [ucbs], [my_arm],
    [is_on_chair] and the configuration as they were, advances [t] by one,
    keeps the number of entries of [nb_draws] and decreases none of
    them. *)
Theorem receive_reward_frame {R} `{ArgSort R}
  (v : variant) (s s' : Player) (reward : R) (collision : bool) :
  receive_reward v s reward collision = Ok s' ->
  nb_arms s' = nb_arms s /\ nb_players s' = nb_players s /\
  best_arms s' = best_arms s /\
  ucbs s' = ucbs s /\ my_arm s' = my_arm s /\
  is_on_chair s' = is_on_chair s /\
  t s' = (t s + 1)%Z /\
  length (nb_draws s') = length (nb_draws s) /\
  forall j, (nth j (nb_draws s) 0 <= nth j (nb_draws s') 0)%Z.
Proof.
  intros E. apply receive_reward_inv in E.
  destruct E as (cum & nd & c & End & _ & ->). simpl.
  repeat split.
  - destruct (my_arm s) as [a|]; simpl in End.
    + apply (setitem_inv _ _ _ _ 0%Z) in End. destruct End as [Ha ->].
      apply update_length, Ha.
    + injection End as <-. apply length_map.
  - intros j. destruct (my_arm s) as [a|]; simpl in End.
    + apply (setitem_inv _ _ _ _ 0%Z) in End. destruct End as [Ha ->].
      rewrite update_nth by exact Ha.
      destruct (Nat.eqb j a) eqn:Ej; [| lia].
      apply Nat.eqb_eq in Ej. subst j. lia.
    + injection End as <-.
      destruct (Nat.lt_ge_cases j (length (nb_draws s))) as [Hj | Hj].
      * rewrite (nth_map_lt _ (nb_draws s) j 0%Z 0%Z Hj). lia.
      * rewrite !nth_overflow by (rewrite ?length_map; exact Hj). lia.
Qed.

Lemma receive_reward_frame_witness :
  exists s',
    receive_reward PlayerRandTop two_arms_warm 7%Z true = Ok s' /\
    ucbs s' = [0; 0]%Z /\ my_arm s' = Some 1 /\ t s' = 3%Z.
Proof.
  exists (recorded two_arms_warm 1 7%Z true).
  assert (E : receive_reward PlayerRandTop two_arms_warm 7%Z true
              = Ok (recorded two_arms_warm 1 7%Z true)) by reflexivity.
  split; [exact E |].
  destruct (receive_reward_frame PlayerRandTop two_arms_warm _ 7%Z true E)
    as (_ & _ & _ & Hu & Ha & _ & Ht & _).
  repeat split; assumption.
Defined.

(** ** Counting the recorded outcomes *)

Lemma vec_sum_update (l : list Z) (a : nat) (y : Z) :
  a < length l ->
  vec_sum (update l a y) = (vec_sum l - nth a l 0 + y)%Z.
Proof.
  unfold update, vec_sum. revert l.
  induction a as [|a IH]; intros [|x l] Ha; simpl in Ha; try lia.
  - simpl. lia.
  - specialize (IH l ltac:(lia)).
    cbn [firstn skipn app fold_right nth] in *. lia.
Qed.

Lemma vec_sum_repeat (K : nat) (x : Z) :
  vec_sum (repeat x K) = (Z.of_nat K * x)%Z.
Proof.
  unfold vec_sum. induction K as [|K IH]; [reflexivity |].
  cbn [repeat fold_right]. rewrite IH. lia.
Qed.

(** X3.  Along a run, in any variant and whatever the policy, the draw
    counts add up to the round counter: every recorded outcome is counted
    for exactly one arm. *)
Theorem draws_sum_to_rounds {R} `{ArgSort R}
  (v : variant) (policy : Policy) (K M : nat) (s : Player) :
  reachable v policy K M s -> vec_sum (nb_draws s) = t s.
Proof.
  induction 1 as [| s _ IH | s d s' _ IH E Hin | s r c s' _ IH Hsome E].
  - simpl. rewrite vec_sum_repeat. lia.
  - simpl. rewrite vec_sum_repeat. lia.
  - destruct (choose_shape v policy s d E) as (l & u & c & _ & -> & _).
    apply in_map_iff in Hin. destruct Hin as (a & <- & _). exact IH.
  - apply receive_reward_inv in E.
    destruct E as (cum & nd & c' & End & _ & ->). simpl.
    destruct (my_arm s) as [a|]; [| congruence]. simpl in End.
    apply (setitem_inv _ _ _ _ 0%Z) in End. destruct End as [Ha ->].
    rewrite vec_sum_update by exact Ha. lia.
Qed.

Lemma draws_sum_to_rounds_witness :
  reachable PlayerMCTop cum_policy 2 1 (two_arms_overtaken true) /\
  vec_sum [1; 2]%Z = 3%Z.
Proof.
  assert (Hr : reachable PlayerMCTop cum_policy 2 1 (two_arms_overtaken true))
    by (apply (two_arms_overtaken_reachable PlayerMCTop); discriminate).
  split; [exact Hr |].
  exact (draws_sum_to_rounds PlayerMCTop cum_policy 2 1
           (two_arms_overtaken true) Hr).
Defined.

(** ** Failure of [receive_reward] *)

(** X4.  [Player.receive_reward] fails only with [IndexError], and exactly
    when [my_arm] is an index outside [cum_rewards] or outside
    [nb_draws]; with [my_arm] undefined it never fails. *)
Theorem Player_receive_reward_raises {R} `{ArgSort R}
  (s : Player) (reward : R) (collision : bool) (e : exn) :
  Player_receive_reward s reward collision = Raise e <->
  e = IndexError /\
  exists a, my_arm s = Some a /\
            (length (cum_rewards s) <= a \/ length (nb_draws s) <= a).
Proof.
  unfold Player_receive_reward.
  destruct (my_arm s) as [a|]; simpl.
  - unfold setitem, getitem.
    destruct (nth_error (cum_rewards s) a) as [x|] eqn:Ec; simpl.
    + assert (Hc : a < length (cum_rewards s))
        by (apply nth_error_Some; congruence).
      destruct (nth_error (nb_draws s) a) as [n|] eqn:Ed; simpl.
      * assert (Hd : a < length (nb_draws s))
          by (apply nth_error_Some; congruence).
        split; [discriminate |].
        intros (_ & a' & [= <-] & [Hle | Hle]); lia.
      * apply nth_error_None in Ed.
        split.
        -- intros [= <-]. split; [reflexivity |]. exists a. auto.
        -- intros (-> & _). reflexivity.
    + apply nth_error_None in Ec.
      split.
      * intros [= <-]. split; [reflexivity |]. exists a. auto.
      * intros (-> & _). reflexivity.
  - split; [discriminate |]. intros (_ & a & Ha & _). discriminate.
Qed.

Lemma Player_receive_reward_raises_witness :
  Player_receive_reward
    (mkPlayer 2 1 [1; 1]%Z [1; 3]%Z 2%Z [0%Z] [0; 0]%Z (Some 5) false false)
    1%Z false
  = Raise IndexError.
Proof.
  apply Player_receive_reward_raises. split; [reflexivity |].
  exists 5. split; [reflexivity |]. left. simpl. lia.
Defined.

(** X5.  In a run, with at least one arm and one player and a policy
    returning one index per arm, [receive_reward] returns whatever reward
    and flag it is given: the arm it indexes with is always in range. *)
Theorem receive_reward_returns_in_runs {R} `{ArgSort R}
  (v : variant) (policy : Policy) (K M : nat) (s : Player)
  (reward : R) (collision : bool) :
  1 <= K -> 1 <= M -> (forall s, length (policy s) = nb_arms s) ->
  reachable v policy K M s ->
  exists s', receive_reward v s reward collision = Ok s'.
Proof.
  intros HK HM Hp Hr.
  pose proof (reachable_Inv policy K M HK HM Hp v s Hr)
    as (_ & _ & I3 & I4 & _ & _ & _ & I8).
  destruct (my_arm s) as [a|] eqn:Ha.
  - destruct (receive_reward_arm v s a reward collision Ha) as (r' & c' & E);
      [lia | lia |]. eauto.
  - destruct v; simpl; unfold PlayerSelfish_receive_reward,
      Player_receive_reward; rewrite Ha; simpl; eauto.
Qed.

Lemma receive_reward_returns_in_runs_witness :
  reachable PlayerSelfish cum_policy 2 1 two_arms_warm /\
  exists s', receive_reward PlayerSelfish two_arms_warm 9%Z true = Ok s'.
Proof.
  assert (Hr : reachable PlayerSelfish cum_policy 2 1 two_arms_warm)
    by (apply two_arms_warm_reachable; discriminate).
  split; [exact Hr |].
  apply (receive_reward_returns_in_runs PlayerSelfish cum_policy 2 1
           two_arms_warm 9%Z true); [lia | lia | apply cum_policy_length | exact Hr].
Defined.

(** ** Flags along a run *)

(** X6.  Along a run, [is_on_chair] is never set in a variant other than
    MCTopM, and a Selfish player never has [has_collided] set: its
    [receive_reward] hands [False] to the shared bookkeeping. *)
Theorem flags_never_set {R} `{ArgSort R}
  (v : variant) (policy : Policy) (K M : nat) (s : Player) :
  reachable v policy K M s ->
  (v <> PlayerMCTop -> is_on_chair s = false) /\
  (v = PlayerSelfish -> has_collided s = false).
Proof.
  induction 1 as [| s _ IH | s d s' _ IH E Hin | s r c s' _ IH Hsome E].
  - split; reflexivity.
  - split; reflexivity.
  - destruct (choose_shape v policy s d E) as (l & u & c & _ & -> & Hc).
    apply in_map_iff in Hin. destruct Hin as (a & <- & _). simpl.
    destruct IH as [IH1 IH2]. split.
    + intros Hv. rewrite (Hc Hv). apply IH1, Hv.
    + exact IH2.
  - apply receive_reward_inv in E.
    destruct E as (cum & nd & c' & _ & Hc' & ->). simpl.
    destruct IH as [IH1 _]. split; assumption.
Qed.

Lemma flags_never_set_witness :
  reachable PlayerSelfish cum_policy 2 1 two_arms_warm /\
  is_on_chair two_arms_warm = false /\ has_collided two_arms_warm = false.
Proof.
  assert (Hr : reachable PlayerSelfish cum_policy 2 1 two_arms_warm)
    by (apply two_arms_warm_reachable; discriminate).
  split; [exact Hr |].
  destruct (flags_never_set PlayerSelfish cum_policy 2 1 two_arms_warm Hr)
    as [H1 H2].
  split; [apply H1; discriminate | apply H2; reflexivity].
Defined.

(** How a MCTopM call can leave the commitment flag set: by warm-start on
    a state that had it set, or by keeping an arm of the top arms. *)
Lemma MCTop_on_chair_inv {R} `{ArgSort R}
  (policy : Policy) (s s' : Player) (d : dist Player) :
  PlayerMCTop_choose_arm_to_play policy s = Ok d -> In s' d ->
  is_on_chair s' = true ->
  (any_zero (nb_draws s) = true /\ is_on_chair s = true) \/
  (any_zero (nb_draws s) = false /\
   nb_draws s' = nb_draws s /\ nb_players s' = nb_players s /\
   ucbs s' = policy s /\
   exists a, my_arm s' = Some a /\ In a (top_arms s (policy s))).
Proof.
  unfold PlayerMCTop_choose_arm_to_play. intros E Hin Hchair.
  destruct (any_zero (nb_draws s)) eqn:Hz.
  - left. split; [reflexivity |].
    apply dmap_choice_shape in E. destruct E as [_ ->].
    apply in_map_iff in Hin. destruct Hin as (a & <- & _). exact Hchair.
  - right. split; [reflexivity |].
    destruct (contains (my_arm s) (top_arms s (policy s))) eqn:Hc; simpl in E.
    + destruct (has_collided s && negb (is_on_chair s)).
      * apply dmap_choice_shape in E. destruct E as [_ ->].
        apply in_map_iff in Hin. destruct Hin as (a & <- & _).
        discriminate.
      * injection E as <-. destruct Hin as [<- | []]. simpl.
        repeat split. destruct (my_arm s) as [a|]; [| discriminate].
        exists a. split; [reflexivity | apply contains_In, Hc].
    + destruct (new_arms_to_choose s (policy s) (top_arms s (policy s)))
        as [cands|e]; simpl in E; [| discriminate].
      apply dmap_choice_shape in E. destruct E as [_ ->].
      apply in_map_iff in Hin. destruct Hin as (a & <- & _).
      discriminate.
Qed.

(** X7.  Along a MCTopM run, a player whose commitment flag is set has
    finished warm-start and sits on one of the top arms of its stored
    index vector. *)
Theorem on_chair_sits_in_top {R} `{ArgSort R}
  (policy : Policy) (K M : nat) (s : Player) :
  reachable PlayerMCTop policy K M s -> is_on_chair s = true ->
  any_zero (nb_draws s) = false /\
  exists a, my_arm s = Some a /\ In a (top_arms s (ucbs s)).
Proof.
  intros Hr.
  assert (J : Forall (fun n => (0 <= n)%Z) (nb_draws s) /\
              (is_on_chair s = true ->
               any_zero (nb_draws s) = false /\
               exists a, my_arm s = Some a /\ In a (top_arms s (ucbs s))));
    [| apply J].
  induction Hr as [| s _ IH | s d s' _ IH E Hin | s r c s' _ IH Hsome E].
  - split; [| discriminate]. simpl.
    apply Forall_forall. intros x Hx. apply repeat_spec in Hx. lia.
  - split; [| discriminate]. simpl.
    apply Forall_forall. intros x Hx. apply repeat_spec in Hx. lia.
  - destruct IH as [IH1 IH2].
    destruct (choose_shape _ _ _ _ E) as (l & u & c & _ & Ed & _).
    assert (Hd : nb_draws s' = nb_draws s).
    { rewrite Ed in Hin. apply in_map_iff in Hin.
      destruct Hin as (a & <- & _). reflexivity. }
    split; [rewrite Hd; exact IH1 |].
    intros Hchair. simpl in E.
    destruct (MCTop_on_chair_inv policy s s' d E Hin Hchair)
      as [[Hz Hc] | (Hz & _ & Hp & Hu & a & Ha & Hin')].
    + destruct (IH2 Hc) as [Hz' _]. congruence.
    + split; [rewrite Hd; exact Hz |]. exists a. split; [exact Ha |].
      unfold top_arms in *. rewrite Hu, Hp. exact Hin'.
  - destruct IH as [IH1 IH2].
    apply receive_reward_inv in E.
    destruct E as (cum & nd & c' & End & _ & ->). simpl.
    destruct (my_arm s) as [a|] eqn:Ha; [| congruence]. simpl in End.
    apply (setitem_inv _ _ _ _ 0%Z) in End. destruct End as [HaK ->].
    assert (Hnn : Forall (fun n => (0 <= n)%Z)
                         (update (nb_draws s) a (nth a (nb_draws s) 0 + 1)%Z)).
    { apply Forall_forall. intros x Hx.
      destruct (In_nth _ _ 0%Z Hx) as (j & Hj & <-).
      rewrite update_length in Hj by exact HaK.
      rewrite update_nth by exact HaK.
      rewrite Forall_forall in IH1.
      destruct (Nat.eqb j a).
      - assert (0 <= nth a (nb_draws s) 0)%Z by (apply IH1, nth_In, HaK). lia.
      - apply IH1, nth_In, Hj. }
    split; [exact Hnn |].
    intros Hchair. destruct (IH2 Hchair) as [Hz Harm].
    split; [| exact Harm].
    destruct (any_zero (update (nb_draws s) a (nth a (nb_draws s) 0 + 1)%Z))
      eqn:Hz'; [| reflexivity].
    apply any_zero_true in Hz'. destruct Hz' as (j & Hj & Ej).
    rewrite update_length in Hj by exact HaK.
    rewrite update_nth in Ej by exact HaK.
    rewrite Forall_forall in IH1.
    destruct (Nat.eqb j a).
    + assert (0 <= nth a (nb_draws s) 0)%Z by (apply IH1, nth_In, HaK). lia.
    + exfalso. exact (any_zero_false _ Hz j Hj Ej).
Qed.

Lemma on_chair_sits_in_top_witness :
  reachable PlayerMCTop cum_policy 2 1 (two_arms_overtaken true) /\
  is_on_chair (two_arms_overtaken true) = true /\
  exists a, my_arm (two_arms_overtaken true) = Some a /\
            In a (top_arms (two_arms_overtaken true) [1; 3]%Z).
Proof.
  assert (Hr : reachable PlayerMCTop cum_policy 2 1 (two_arms_overtaken true))
    by (apply (two_arms_overtaken_reachable PlayerMCTop); discriminate).
  split; [exact Hr |]. split; [reflexivity |].
  apply (on_chair_sits_in_top cum_policy 2 1 (two_arms_overtaken true) Hr).
  reflexivity.
Defined.

(** ** The variants compared *)

(** X8.  On a state whose collision flag is not set, RandTopMOld and
    RandTopM return the same result: the two differ only in how they react
    to a collision. *)
Theorem RandTopOld_agrees_without_collision {R} `{ArgSort R}
  (policy : Policy) (s : Player) :
  has_collided s = false ->
  PlayerRandTopOld_choose_arm_to_play policy s
  = PlayerRandTop_choose_arm_to_play policy s.
Proof.
  intros Hc.
  unfold PlayerRandTopOld_choose_arm_to_play, PlayerRandTop_choose_arm_to_play.
  rewrite Hc.
  destruct (any_zero (nb_draws s)); [reflexivity |].
  destruct (contains (my_arm s) (top_arms s (policy s))); reflexivity.
Qed.

Lemma RandTopOld_agrees_without_collision_witness :
  PlayerRandTopOld_choose_arm_to_play cum_policy (three_arms_left_top false)
  = PlayerRandTop_choose_arm_to_play cum_policy (three_arms_left_top false).
Proof.
  apply (RandTopOld_agrees_without_collision cum_policy
           (three_arms_left_top false)).
  reflexivity.
Defined.

Lemma dmap_dmap {A B C} (f : A -> B) (g : B -> C) (r : result (dist A)) :
  dmap g (dmap f r) = dmap (fun x => g (f x)) r.
Proof.
  destruct r as [l|e]; simpl; [| reflexivity]. rewrite map_map. reflexivity.
Qed.

(** X9.  On a state whose commitment flag is not set, MCTopM selects as
    RandTopM does: the two calls fail together, and otherwise offer the
    same arms with the same refreshed index vector. *)
Theorem MCTop_selects_as_RandTop_off_chair {R} `{ArgSort R}
  (policy : Policy) (s : Player) :
  is_on_chair s = false ->
  dmap (fun s' => (my_arm s', ucbs s'))
       (PlayerMCTop_choose_arm_to_play policy s)
  = dmap (fun s' => (my_arm s', ucbs s'))
         (PlayerRandTop_choose_arm_to_play policy s).
Proof.
  intros Hc.
  unfold PlayerMCTop_choose_arm_to_play, PlayerRandTop_choose_arm_to_play.
  rewrite Hc.
  destruct (any_zero (nb_draws s)); [reflexivity |].
  destruct (contains (my_arm s) (top_arms s (policy s))); simpl.
  - destruct (has_collided s); simpl; [| reflexivity].
    rewrite !dmap_dmap. reflexivity.
  - destruct (new_arms_to_choose s (policy s) (top_arms s (policy s)));
      simpl; [| reflexivity].
    rewrite !dmap_dmap. reflexivity.
Qed.

Lemma MCTop_selects_as_RandTop_off_chair_witness :
  dmap (fun s' => (my_arm s', ucbs s'))
       (PlayerMCTop_choose_arm_to_play cum_policy (three_arms_left_top true))
  = dmap (fun s' => (my_arm s', ucbs s'))
         (PlayerRandTop_choose_arm_to_play cum_policy (three_arms_left_top true)).
Proof.
  apply (MCTop_selects_as_RandTop_off_chair cum_policy
           (three_arms_left_top true)).
  reflexivity.
Defined.

(** ** The rank of the selected arm *)

(** X10.  In a run of RandTopMOld, RandTopM or MCTopM, after any call the
    selected arm has fewer than M arms strictly above it in the index
    vector the player stores: its index is among the M best. *)
Theorem selected_arm_is_among_best {R} `{ArgSort R}
  (v : variant) (policy : Policy) (K M : nat) (s s' : Player)
  (d : dist Player) :
  1 <= K -> 1 <= M -> (forall s, length (policy s) = nb_arms s) ->
  v <> PlayerSelfish ->
  reachable v policy K M s ->
  choose_arm_to_play v policy s = Ok d -> In s' d ->
  exists a, my_arm s' = Some a /\ a < K /\ gt_count (ucbs s') a < M.
Proof.
  intros HK HM Hp Hv Hr E Hin.
  pose proof (reachable_Inv policy K M HK HM Hp v s Hr) as HI.
  assert (Hb : v <> PlayerBase) by (intros ->; discriminate).
  destruct (choose_step policy K M HK HM Hp v s HI Hb) as (d' & E' & _ & Hd).
  rewrite E' in E. injection E as <-.
  destruct (Hd s' Hin) as [HI' (a & Ha & HaK)].
  exists a. split; [exact Ha |]. split; [exact HaK |].
  destruct HI' as (_ & _ & _ & _ & _ & _ & _ & I8).
  rewrite Ha in I8. destruct I8 as [_ [-> | Hc]]; [congruence | exact Hc].
Qed.

Lemma selected_arm_is_among_best_witness :
  reachable PlayerRandTop cum_policy 2 1 (two_arms_overtaken false) /\
  gt_count [1; -2]%Z 0 < 1.
Proof.
  assert (Hr : reachable PlayerRandTop cum_policy 2 1 (two_arms_overtaken false))
    by (apply (two_arms_overtaken_reachable PlayerRandTop); discriminate).
  split; [exact Hr |].
  assert (E : choose_arm_to_play PlayerRandTop cum_policy
                (two_arms_overtaken false)
              = Ok [decided (two_arms_overtaken false) (Some 0) false
                            [1; -2]%Z]) by reflexivity.
  destruct (selected_arm_is_among_best PlayerRandTop cum_policy 2 1
              (two_arms_overtaken false) _ _
              ltac:(lia) ltac:(lia) cum_policy_length ltac:(discriminate)
              Hr E (or_introl eq_refl))
    as (a & Ha & _ & Hc).
  injection Ha as <-. exact Hc.
Defined.

(** ** The configuration along a run *)

(** X11.  Along a run, in any variant and whatever the policy, the numbers
    of arms and of players are those the player was built with, the
    [best_arms] attribute still holds its initial zeros (no method assigns
    it), and [clear] gives back the state the player was built in. *)
Theorem clear_restores_initial_state {R} `{ArgSort R}
  (v : variant) (policy : Policy) (K M : nat) (s : Player) :
  reachable v policy K M s ->
  nb_arms s = K /\ nb_players s = M /\
  best_arms s = repeat zero M /\
  clear s = clear_state K M.
Proof.
  intros Hr.
  assert (J : nb_arms s = K /\ nb_players s = M /\ best_arms s = repeat zero M).
  { induction Hr as [| s _ IH | s d s' _ IH E Hin | s r c s' _ IH Hsome E].
    - repeat split.
    - destruct IH as (E1 & E2 & _). unfold clear. rewrite E1, E2.
      repeat split.
    - destruct (choose_shape v policy s d E) as (l & u & c & _ & -> & _).
      apply in_map_iff in Hin. destruct Hin as (a & <- & _). exact IH.
    - apply receive_reward_inv in E.
      destruct E as (cum & nd & c' & _ & _ & ->). exact IH. }
  destruct J as (J1 & J2 & J3). repeat split; try assumption.
  unfold clear. rewrite J1, J2. reflexivity.
Qed.

Lemma clear_restores_initial_state_witness :
  reachable PlayerMCTop cum_policy 2 1 (two_arms_overtaken true) /\
  clear (two_arms_overtaken true) = clear_state 2 1.
Proof.
  assert (Hr : reachable PlayerMCTop cum_policy 2 1 (two_arms_overtaken true))
    by (apply (two_arms_overtaken_reachable PlayerMCTop); discriminate).
  split; [exact Hr |].
  apply (clear_restores_initial_state PlayerMCTop cum_policy 2 1
           (two_arms_overtaken true) Hr).
Defined.

(** ** The length of warm-start *)

Lemma zero_one_sum_bounds (l : list Z) :
  Forall (fun n => n = 0 \/ n = 1)%Z l ->
  (0 <= vec_sum l <= Z.of_nat (length l))%Z.
Proof.
  unfold vec_sum. induction 1 as [|x l Hx _ IH]; simpl; [lia |].
  destruct Hx; subst; lia.
Qed.

Lemma zero_one_some_zero (l : list Z) :
  Forall (fun n => n = 0 \/ n = 1)%Z l ->
  (vec_sum l < Z.of_nat (length l))%Z -> any_zero l = true.
Proof.
  induction 1 as [|x l Hx Hl IH]; intros Hs.
  - simpl in Hs. lia.
  - unfold any_zero. cbn [existsb]. destruct Hx as [-> | ->]; [reflexivity |].
    simpl. apply IH. unfold vec_sum in *. cbn [fold_right length] in Hs. lia.
Qed.

Lemma zero_one_all_one (l : list Z) :
  Forall (fun n => n = 0 \/ n = 1)%Z l ->
  vec_sum l = Z.of_nat (length l) -> l = repeat 1%Z (length l).
Proof.
  induction 1 as [|x l Hx Hl IH]; intros Hs; [reflexivity |].
  pose proof (zero_one_sum_bounds l Hl) as B.
  unfold vec_sum in *. cbn [fold_right length repeat] in *.
  destruct Hx as [-> | ->]; [lia |].
  f_equal. apply IH. lia.
Qed.

Lemma zero_one_min (l : list Z) :
  Forall (fun n => n = 0 \/ n = 1)%Z l -> any_zero l = true ->
  vec_min l = 0%Z.
Proof.
  intros Hl Hz. apply any_zero_true in Hz. destruct Hz as (j & Hj & Ej).
  assert (Hne : l <> []) by (destruct l; simpl in *; [lia | discriminate]).
  assert (H0 : In 0%Z l) by (rewrite <- Ej; apply nth_In, Hj).
  pose proof (vec_min_le l 0%Z H0) as Hle.
  rewrite Forall_forall in Hl.
  destruct (Hl _ (vec_min_In l Hne)); lia.
Qed.

(** One round played while some arm is undrawn draws an undrawn arm. *)
Lemma warm_round {R} `{ArgSort R} (v : variant) (policy : Policy)
  (s s1 s2 : Player) (d : dist Player) (reward : R) (collision : bool) :
  v <> PlayerBase ->
  Forall (fun n => n = 0 \/ n = 1)%Z (nb_draws s) ->
  any_zero (nb_draws s) = true ->
  choose_arm_to_play v policy s = Ok d -> In s1 d ->
  receive_reward v s1 reward collision = Ok s2 ->
  length (nb_draws s2) = length (nb_draws s) /\
  Forall (fun n => n = 0 \/ n = 1)%Z (nb_draws s2) /\
  vec_sum (nb_draws s2) = (vec_sum (nb_draws s) + 1)%Z /\
  ucbs s2 = ucbs s.
Proof.
  intros Hv H01 Hz E Hin Er.
  assert (Hw : choose_arm_to_play v policy s = warm_start s).
  { destruct v; try congruence; simpl;
      [ unfold PlayerRandTopOld_choose_arm_to_play
      | unfold PlayerRandTop_choose_arm_to_play
      | unfold PlayerMCTop_choose_arm_to_play
      | unfold PlayerSelfish_choose_arm_to_play ]; rewrite Hz; reflexivity. }
  destruct (warm_start_least_drawn s Hz) as [Ew _].
  rewrite Hw, Ew in E. injection E as <-.
  apply in_map_iff in Hin. destruct Hin as (a & <- & Ha).
  unfold least_drawn in Ha. apply filter_In in Ha. destruct Ha as [Ha Hmin].
  apply in_seq in Ha. apply Z.eqb_eq in Hmin.
  rewrite (zero_one_min _ H01 Hz) in Hmin.
  apply receive_reward_inv in Er.
  destruct Er as (cum & nd & c' & End & _ & ->). simpl in *.
  apply (setitem_inv _ _ _ _ 0%Z) in End. destruct End as [HaK ->].
  rewrite Hmin. split; [apply update_length, HaK |].
  split; [| split; [| reflexivity]].
  - apply Forall_forall. intros x Hx.
    destruct (In_nth _ _ 0%Z Hx) as (j & Hj & <-).
    rewrite update_length in Hj by exact HaK.
    rewrite update_nth by exact HaK.
    rewrite Forall_forall in H01.
    destruct (Nat.eqb j a); [right; reflexivity |].
    apply H01, nth_In, Hj.
  - rewrite vec_sum_update by exact HaK. lia.
Qed.

Lemma warm_rounds {R} `{ArgSort R} (v : variant) (policy : Policy)
  (n : nat) (s s' : Player) :
  v <> PlayerBase ->
  rounds v policy n s s' ->
  Forall (fun n => n = 0 \/ n = 1)%Z (nb_draws s) ->
  (vec_sum (nb_draws s) + Z.of_nat n <= Z.of_nat (length (nb_draws s)))%Z ->
  length (nb_draws s') = length (nb_draws s) /\
  Forall (fun n => n = 0 \/ n = 1)%Z (nb_draws s') /\
  vec_sum (nb_draws s') = (vec_sum (nb_draws s) + Z.of_nat n)%Z /\
  ucbs s' = ucbs s.
Proof.
  intros Hv Hr.
  induction Hr as [s | n s d s1 r c s2 s3 E Hin Er _ IH]; intros H01 Hs.
  - repeat split; [exact H01 | lia].
  - assert (Hz : any_zero (nb_draws s) = true)
      by (apply zero_one_some_zero; [exact H01 | lia]).
    destruct (warm_round v policy s s1 s2 d r c Hv H01 Hz E Hin Er)
      as (L2 & H2 & S2 & U2).
    destruct IH as (L3 & H3 & S3 & U3); [exact H2 | rewrite S2, L2; lia |].
    repeat split; [congruence | exact H3 | rewrite S3, S2; lia | congruence].
Qed.

(** X12.  Warm-start lasts exactly K rounds.  From the cleared state, in
    each of the four variants and whatever the policy, the rewards and the
    collisions, after [n <= K] rounds exactly [n] arms have been drawn,
    once each; so some arm is still undrawn while [n < K], and after K
    rounds every arm has been drawn exactly once. *)
Theorem warm_start_draws_each_arm_once {R} `{ArgSort R}
  (v : variant) (policy : Policy) (K M n : nat) (s : Player) :
  v <> PlayerBase -> n <= K ->
  rounds v policy n (clear_state K M) s ->
  length (nb_draws s) = K /\
  Forall (fun c => c = 0 \/ c = 1)%Z (nb_draws s) /\
  vec_sum (nb_draws s) = Z.of_nat n /\
  (n < K -> any_zero (nb_draws s) = true) /\
  (n = K -> nb_draws s = repeat 1%Z K /\ any_zero (nb_draws s) = false).
Proof.
  intros Hv Hn Hr.
  assert (Hinit : Forall (fun c => c = 0 \/ c = 1)%Z
                         (nb_draws (clear_state (R := R) K M))).
  { simpl. apply Forall_forall. intros x Hx. apply repeat_spec in Hx. auto. }
  destruct (warm_rounds v policy n _ s Hv Hr Hinit) as (L & H01 & S & _).
  { simpl. rewrite vec_sum_repeat, repeat_length. lia. }
  simpl in L, S. rewrite repeat_length in L. rewrite vec_sum_repeat in S.
  split; [exact L |]. split; [exact H01 |]. split; [lia |]. split.
  - intros Hlt. apply zero_one_some_zero; [exact H01 | lia].
  - intros En. subst n.
    assert (E : nb_draws s = repeat 1%Z K)
      by (rewrite <- L; apply zero_one_all_one; [exact H01 | lia]).
    split; [exact E |]. rewrite E.
    unfold any_zero. clear. induction K; [reflexivity | exact IHK].
Qed.

Lemma two_arms_warm_rounds (v : variant) :
  v <> PlayerBase ->
  rounds v cum_policy 2 (clear_state 2 1) two_arms_warm.
Proof.
  intros Hv.
  pose (s1 := set_my_arm (clear_state (R := Z) 2 1) 0).
  pose (s2 := recorded s1 0 1%Z false).
  pose (s3 := set_my_arm s2 1).
  apply (rounds_play v cum_policy 1 (clear_state 2 1)
           [s1; set_my_arm (clear_state 2 1) 1] s1 1%Z false s2 two_arms_warm);
    [ destruct v; try congruence; reflexivity | left; reflexivity
    | destruct v; reflexivity | ].
  apply (rounds_play v cum_policy 0 s2 [s3] s3 3%Z false
           two_arms_warm two_arms_warm);
    [ destruct v; try congruence; reflexivity | left; reflexivity
    | destruct v; reflexivity | apply rounds_done ].
Qed.

Lemma warm_start_draws_each_arm_once_witness :
  rounds PlayerSelfish cum_policy 2 (clear_state 2 1) two_arms_warm /\
  nb_draws two_arms_warm = [1; 1]%Z.
Proof.
  assert (Hr : rounds PlayerSelfish cum_policy 2 (clear_state 2 1)
                      two_arms_warm)
    by (apply two_arms_warm_rounds; discriminate).
  split; [exact Hr |].
  destruct (warm_start_draws_each_arm_once PlayerSelfish cum_policy 2 1 2
              two_arms_warm ltac:(discriminate) (le_n 2) Hr)
    as (_ & _ & _ & _ & Hall).
  apply Hall. reflexivity.
Defined.

(** ** Degenerate numbers of players *)

(** X13.  With no player ([nb_players = 0]) the top arms are empty, and
    after warm-start the three top-M variants fail: RandTopM and MCTopM on
    [best_arms[-1]] with [IndexError], RandTopMOld likewise unless the
    collision flag is set, in which case the choice in the empty top arms
    fails with [ValueError]. *)
Theorem no_player_no_top_arm {R} `{ArgSort R} (policy : Policy) (s : Player) :
  nb_players s = 0 -> any_zero (nb_draws s) = false ->
  top_arms s (policy s) = [] /\
  PlayerRandTop_choose_arm_to_play policy s = Raise IndexError /\
  PlayerMCTop_choose_arm_to_play policy s = Raise IndexError /\
  PlayerRandTopOld_choose_arm_to_play policy s
  = Raise (if has_collided s then ValueError else IndexError).
Proof.
  intros HM Hz.
  assert (Et : top_arms s (policy s) = [])
    by (unfold top_arms; rewrite HM; reflexivity).
  assert (Ec : contains (my_arm s) [] = false)
    by (destruct (my_arm s); reflexivity).
  unfold PlayerRandTop_choose_arm_to_play, PlayerMCTop_choose_arm_to_play,
    PlayerRandTopOld_choose_arm_to_play.
  rewrite Hz, Et, Ec. simpl.
  repeat split. destruct (has_collided s); reflexivity.
Qed.

Lemma no_player_no_top_arm_witness :
  PlayerMCTop_choose_arm_to_play cum_policy
    (mkPlayer 2 0 [1; 1]%Z [1; 3]%Z 2%Z [] [0; 0]%Z (Some 1) false false)
  = Raise IndexError.
Proof.
  apply (no_player_no_top_arm cum_policy
           (mkPlayer 2 0 [1; 1]%Z [1; 3]%Z 2%Z [] [0; 0]%Z (Some 1) false false));
    reflexivity.
Defined.

(** X14.  With at least as many players as the policy ranks arms, every
    arm is a top arm, and after warm-start a RandTopMOld player with a
    valid arm keeps it, collision or not. *)
Theorem full_house_keeps_arm {R} `{ArgSort R}
  (policy : Policy) (s : Player) (a : nat) :
  length (policy s) <= nb_players s ->
  any_zero (nb_draws s) = false ->
  my_arm s = Some a -> a < length (policy s) ->
  (forall x, x < length (policy s) -> In x (top_arms s (policy s))) /\
  PlayerRandTopOld_choose_arm_to_play policy s
  = Ok [decided s (Some a) (is_on_chair s) (policy s)].
Proof.
  intros HM Hz Ha HaK.
  split; [intros x Hx; apply top_arms_all; assumption |].
  unfold PlayerRandTopOld_choose_arm_to_play. rewrite Hz, Ha.
  rewrite (proj2 (contains_In a _) (top_arms_all s (policy s) a HM HaK)).
  simpl. unfold set_ucbs, decided. rewrite Ha. reflexivity.
Qed.

Lemma full_house_keeps_arm_witness :
  PlayerRandTopOld_choose_arm_to_play cum_policy
    (mkPlayer 2 2 [1; 1]%Z [3; 1]%Z 2%Z [0; 0]%Z [0; 0]%Z (Some 1) true false)
  = Ok [mkPlayer 2 2 [1; 1]%Z [3; 1]%Z 2%Z [0; 0]%Z [3; 1]%Z (Some 1) true false].
Proof.
  apply (full_house_keeps_arm cum_policy
           (mkPlayer 2 2 [1; 1]%Z [3; 1]%Z 2%Z [0; 0]%Z [0; 0]%Z (Some 1)
                     true false) 1);
    [simpl; lia | reflexivity | reflexivity | simpl; lia].
Defined.

(** ** Selfish after warm-start *)

Lemma is_argmax_maximiser {R} `{Scalar R} (v : list R) (i : nat) :
  i < length v ->
  is_argmax leb v i = forallb (fun y => leb y (nth i v zero)) v.
Proof.
  intros Hi. unfold is_argmax. rewrite (nth_error_nth' v zero Hi). reflexivity.
Qed.

(** X15.  After warm-start a Selfish player with a non-empty index vector
    draws uniformly among the arms that maximise the index vector it
    stored at the previous call, and only then refreshes the vector, the
    policy seeing the new arm; the flags play no part. *)
Theorem Selfish_choose_after_warm_start {R} `{ArgSort R}
  (policy : Policy) (s : Player) :
  any_zero (nb_draws s) = false -> ucbs s <> [] ->
  draws_uniformly
    (ucbs_maximisers s)
    (fun a => decided s (Some a) (is_on_chair s) (policy (set_my_arm s a)))
    (PlayerSelfish_choose_arm_to_play policy s) /\
  forall a, In a (ucbs_maximisers s) <->
            a < length (ucbs s) /\
            forall x, x < length (ucbs s) ->
                      leb (nth x (ucbs s) zero) (nth a (ucbs s) zero) = true.
Proof.
  intros Hz Hu.
  assert (Ef : filter (is_argmax leb (ucbs s)) (seq 0 (length (ucbs s)))
               = ucbs_maximisers s).
  { unfold ucbs_maximisers. apply filter_ext_in. intros i Hi.
    apply in_seq in Hi. apply is_argmax_maximiser. lia. }
  destruct (randmax_total R leb leb_total leb_trans _ Hu) as [E Hl].
  rewrite Ef in E, Hl.
  split.
  - unfold PlayerSelfish_choose_arm_to_play. rewrite Hz.
    unfold randmax in *. rewrite Ef.
    apply (draws_uniformly_intro (ucbs_maximisers s)
             (fun a => decided s (Some a) (is_on_chair s)
                               (policy (set_my_arm s a))));
      [exact Hl | apply NoDup_filter, seq_NoDup | reflexivity].
  - intros a. unfold ucbs_maximisers.
    rewrite filter_In, in_seq, forallb_forall. split.
    + intros [Ha Hmax]. split; [lia |]. intros x Hx. apply Hmax, nth_In, Hx.
    + intros [Ha Hmax]. split; [lia |]. intros y Hy.
      destruct (In_nth _ _ zero Hy) as (x & Hx & <-). apply Hmax, Hx.
Qed.

Lemma Selfish_choose_after_warm_start_witness :
  draws_uniformly
    [0; 1]
    (fun a => decided two_arms_warm (Some a) false [1; 3]%Z)
    (PlayerSelfish_choose_arm_to_play cum_policy two_arms_warm).
Proof.
  destruct (Selfish_choose_after_warm_start cum_policy two_arms_warm)
    as [Hd _]; [reflexivity | discriminate | exact Hd].
Defined.

Lemma maximisers_of_zeros {R} `{Scalar R} (K : nat) (s : @Player R) :
  ucbs s = repeat zero K -> ucbs_maximisers s = seq 0 K.
Proof.
  intros E. unfold ucbs_maximisers. rewrite E, repeat_length.
  rewrite (filter_ext_in _ (fun _ => true)).
  - induction (seq 0 K) as [|x l IH]; simpl; [reflexivity | f_equal; exact IH].
  - intros i _. apply forallb_forall. intros y Hy.
    apply repeat_spec in Hy. subst y.
    assert (En : nth i (repeat zero K) zero = zero).
    { destruct (Nat.lt_ge_cases i K) as [Hi | Hi].
      - apply nth_repeat_lt, Hi.
      - apply nth_overflow. rewrite repeat_length. exact Hi. }
    rewrite En. apply leb_refl.
Qed.

(** X16.  The first Selfish call after warm-start does not look at what
    was observed: K rounds after the cleared state the stored index vector
    is still all zeros, so whatever the rewards and the policy the arm is
    drawn uniformly among all K arms. *)
Theorem Selfish_first_choice_is_blind {R} `{ArgSort R}
  (policy : Policy) (K M : nat) (s : Player) :
  1 <= K ->
  rounds PlayerSelfish policy K (clear_state K M) s ->
  draws_uniformly
    (seq 0 K)
    (fun a => decided s (Some a) (is_on_chair s) (policy (set_my_arm s a)))
    (PlayerSelfish_choose_arm_to_play policy s).
Proof.
  intros HK Hr.
  assert (Hinit : Forall (fun c => c = 0 \/ c = 1)%Z
                         (nb_draws (clear_state (R := R) K M))).
  { simpl. apply Forall_forall. intros x Hx. apply repeat_spec in Hx. auto. }
  destruct (warm_rounds PlayerSelfish policy K _ s ltac:(discriminate) Hr Hinit)
    as (L & H01 & S & U).
  { simpl. rewrite vec_sum_repeat, repeat_length. lia. }
  simpl in L, S, U. rewrite repeat_length in L. rewrite vec_sum_repeat in S.
  assert (E : nb_draws s = repeat 1%Z K)
    by (rewrite <- L; apply zero_one_all_one; [exact H01 | lia]).
  assert (Hz : any_zero (nb_draws s) = false).
  { rewrite E. unfold any_zero. clear. induction K; [reflexivity | exact IHK]. }
  unfold PlayerSelfish_choose_arm_to_play. rewrite Hz.
  unfold randmax.
  assert (Ef : filter (is_argmax leb (ucbs s)) (seq 0 (length (ucbs s)))
               = seq 0 K).
  { rewrite <- (maximisers_of_zeros K s U). unfold ucbs_maximisers.
    apply filter_ext_in. intros i Hi.
    apply in_seq in Hi. apply is_argmax_maximiser. lia. }
  rewrite Ef.
  apply (draws_uniformly_intro (seq 0 K)
           (fun a => decided s (Some a) (is_on_chair s)
                             (policy (set_my_arm s a))));
    [destruct K; [lia | discriminate] | apply seq_NoDup | reflexivity].
Qed.

Lemma Selfish_first_choice_is_blind_witness :
  rounds PlayerSelfish cum_policy 2 (clear_state 2 1) two_arms_warm /\
  draws_uniformly
    [0; 1]
    (fun a => decided two_arms_warm (Some a) false [1; 3]%Z)
    (PlayerSelfish_choose_arm_to_play cum_policy two_arms_warm).
Proof.
  assert (Hr : rounds PlayerSelfish cum_policy 2 (clear_state 2 1)
                      two_arms_warm)
    by (apply two_arms_warm_rounds; discriminate).
  split; [exact Hr |].
  apply (Selfish_first_choice_is_blind cum_policy 2 1 two_arms_warm
           ltac:(lia) Hr).
Defined.

(** ** Display names *)

(** X17.  The display names of the five classes are pairwise distinct: a
    name identifies the strategy. *)
Theorem name_identifies_strategy (v w : variant) :
  name v = name w -> v = w.
Proof. destruct v, w; simpl; intros E; (reflexivity || discriminate E). Qed.

Lemma name_identifies_strategy_witness :
  name PlayerMCTop = "MCTopM"%string /\ PlayerMCTop = PlayerMCTop.
Proof.
  split; [reflexivity |].
  apply (name_identifies_strategy PlayerMCTop PlayerMCTop). reflexivity.
Defined.
